(** * SLCAN codec of canbus.js: frame encoder, single-command parser and
      stream reassembly, embedded from [src/canbusjs/src/canbus.js].

    JavaScript strings are modelled as [string]; every character the
    decoder sees comes from [String.fromCharCode] applied to an element of a
    [Uint8Array], so a code unit is an [ascii] (0..255).  JavaScript numbers
    that the codec handles are non-negative integers and are modelled as [N];
    [NaN] is [None].  A [throw] is the [Err] branch of [result]. *)

From Stdlib Require Import NArith List String Ascii Bool Lia Arith.
From Stdlib.Strings Require Import Byte.
Import ListNotations.

Local Open Scope string_scope.
Local Open Scope N_scope.

(** ** Exceptions and the error monad *)

(** What the code throws.  The first four are the strings thrown by
    [_parseFrame]; [TypeError] is what the engine raises when a method is
    called on [undefined]. *)
Inductive exn : Type :=
| InvalidFrameType            (* "Invalid slcand frame! (bad frame type char)" *)
| InvalidIdentifier           (* "Invalid ID value" *)
| InvalidDlc                  (* "Invalid DLC value" *)
| InvalidDataByte (i : nat)   (* "Invalid data byte at position " + i *)
| TypeError.

Inductive result (A : Type) : Type :=
| Ok (a : A)
| Err (e : exn).
Arguments Ok {A} a.
Arguments Err {A} e.

Definition bind {A B} (r : result A) (k : A -> result B) : result B :=
  match r with
  | Ok a => k a
  | Err e => Err e
  end.

Notation "x <- r ;; k" := (bind r (fun x => k))
  (at level 61, r at next level, right associativity).

(** ** JavaScript string primitives *)

Module JS.

Definition CR : ascii := "013"%char.

(** [s.substr(start, len)] for [0 <= start]: the characters from [start],
    at most [len] of them, clipped at the end of the string. *)
Fixpoint substr (start len : nat) (s : string) : string :=
  match s with
  | EmptyString => EmptyString
  | String c s' =>
      match start with
      | S start' => substr start' len s'
      | O => match len with
             | O => EmptyString
             | S len' => String c (substr O len' s')
             end
      end
  end.

(** [s.substr(start)] for [0 <= start]. *)
Definition substr_from (start : nat) (s : string) : string :=
  substr start (String.length s) s.

(** [s[0]]; [None] is [undefined]. *)
Definition char0 (s : string) : option ascii :=
  match s with
  | EmptyString => None
  | String c _ => Some c
  end.

Definition code (c : ascii) : N := N_of_ascii c.

(** StrWhiteSpaceChar of the language, among the code units below 256:
    TAB, LF, VT, FF, CR, SP and NBSP. *)
Definition is_white_space (c : ascii) : bool :=
  let n := code c in
  ((9 <=? n) && (n <=? 13)) || (n =? 32) || (n =? 160).

(** Value of a hexadecimal digit, either case. *)
Definition hex_digit (c : ascii) : option N :=
  let n := code c in
  if (48 <=? n) && (n <=? 57) then Some (n - 48)
  else if (65 <=? n) && (n <=? 70) then Some (n - 55)
  else if (97 <=? n) && (n <=? 102) then Some (n - 87)
  else None.

Definition dec_digit (c : ascii) : option N :=
  let n := code c in
  if (48 <=? n) && (n <=? 57) then Some (n - 48) else None.

(** Removes the trailing white space of a string. *)
Fixpoint trim_end (s : string) : string :=
  match s with
  | EmptyString => EmptyString
  | String c s' =>
      match trim_end s' with
      | EmptyString => if is_white_space c then EmptyString
                       else String c EmptyString
      | t => String c t
      end
  end.

(** Value of a string of hexadecimal digits read from the left with
    accumulator [acc]; [None] at the first character that is no digit. *)
Fixpoint hex_value (acc : N) (s : string) : option N :=
  match s with
  | EmptyString => Some acc
  | String c s' =>
      match hex_digit c with
      | Some d => hex_value (16 * acc + d) s'
      | None => None
      end
  end.

(** [Number("0x" + s)]: the argument starts with "0x", so only trailing
    white space is stripped, and what remains must be one or more
    hexadecimal digits.  The codec applies it to at most 8 characters, where
    the value is exact. *)
Definition Number_hex (s : string) : option N :=
  match trim_end s with
  | EmptyString => None
  | t => hex_value 0 t
  end.

(** [Number(s)] for a string of at most one character, which is what
    [substr(_, 1)] returns: the empty string and a white space character
    convert to 0, a decimal digit to its value, anything else to [NaN]. *)
Definition Number_char (s : string) : option N :=
  match s with
  | EmptyString => Some 0
  | String c EmptyString =>
      if is_white_space c then Some 0 else dec_digit c
  | String _ (String _ _) => None
  end.

(** The digit character of [d < radix <= 16], lower case. *)
Definition digit_char (d : N) : ascii :=
  ascii_of_N (if d <? 10 then 48 + d else 87 + d).

Fixpoint digits (radix : N) (fuel : nat) (n : N) (acc : string) : string :=
  match fuel with
  | O => acc
  | S fuel' =>
      let acc' := String (digit_char (n mod radix)) acc in
      if n / radix =? 0 then acc' else digits radix fuel' (n / radix) acc'
  end.

(** [n.toString(radix)] for a non-negative integer [n] and
    [2 <= radix <= 16]; a number has at most [log2 n + 1] digits. *)
Definition toString (radix : N) (n : N) : string :=
  digits radix (S (N.to_nat (N.log2 n))) n EmptyString.

Definition upper_char (c : ascii) : ascii :=
  let n := code c in
  if (97 <=? n) && (n <=? 122) then ascii_of_N (n - 32) else c.

(** [s.toUpperCase()] on the ASCII letters, the only ones the codec
    produces. *)
Fixpoint toUpperCase (s : string) : string :=
  match s with
  | EmptyString => EmptyString
  | String c s' => String (upper_char c) (toUpperCase s')
  end.

End JS.

(** ** The frame object ([canbus.frame]) *)

(** The fields the constructor sets, and [id_ext_id], the property that the
    assignment [res.id_ext_id = is_ext_id] of [_parseFrame] creates on the
    object; it is absent ([None]) on a frame built by the constructor alone. *)
Record frame : Type := mkFrame {
  id : N;
  dlc : N;
  timestamp : option N;
  data : list N;
  is_ext_id : bool;
  is_remote : bool;
  id_ext_id : option bool
}.

(** [new canbus.frame(id)] *)
Definition new_frame (i : N) : frame :=
  {| id := i; dlc := 0; timestamp := None; data := [];
     is_ext_id := false; is_remote := false; id_ext_id := None |}.

Definition STD_ID_LEN : nat := 3.
Definition EXT_ID_LEN : nat := 8.

(** ** Encoder ([canbus.slcan.prototype._packFrame]) *)

(** Body of the loop over the data bytes for index [i]: the byte as two
    upper-case hexadecimal characters.  [frame.data[i]] is [undefined] past
    the end of the array, and calling [toString] on it raises. *)
Definition pack_byte (f : frame) (i : nat) : result string :=
  match nth_error (data f) i with
  | None => Err TypeError
  | Some b =>
      let byte_str := "0" ++ JS.toUpperCase (JS.toString 16 b) in
      Ok (JS.substr_from (String.length byte_str - 2) byte_str)
  end.

(** [for (var i = 0; i < frame.dlc; i++)], with [i] counting up from [i] for
    [n] more rounds. *)
Fixpoint pack_data (f : frame) (i n : nat) (res : string) : result string :=
  match n with
  | O => Ok res
  | S n' =>
      b <- pack_byte f i ;;
      pack_data f (S i) n' (res ++ b)
  end.

Definition _packFrame (f : frame) : result string :=
  let res := if is_remote f then "r" else "t" in
  let res := if is_ext_id f then JS.toUpperCase res else res in
  let id_str := "0000000" ++ JS.toString 16 (id f) in
  let res :=
    if is_ext_id f
    then res ++ JS.substr_from (String.length id_str - EXT_ID_LEN) id_str
    else res ++ JS.substr_from (String.length id_str - STD_ID_LEN) id_str in
  let res := res ++ JS.toString 10 (dlc f) in
  res <- pack_data f 0 (N.to_nat (dlc f)) res ;;
  Ok (res ++ String JS.CR EmptyString).

(** ** Single-command parser ([canbus.slcan.prototype._parseFrame]) *)

(** The frame type from the first character: [(is_ext_id, is_remote)]. *)
Definition frame_type (str : string) : result (bool * bool) :=
  match JS.char0 str with
  | None => Err InvalidFrameType
  | Some c =>
      if (c =? "t")%char then Ok (false, false)
      else if (c =? "r")%char then Ok (false, true)
      else if (c =? "T")%char then Ok (true, false)
      else if (c =? "R")%char then Ok (true, true)
      else Err InvalidFrameType
  end.

(** [for (var i = 0; i < dlc; i++)], with [i] counting up from [i] for [n]
    more rounds; [bytes] is the array [data] built so far. *)
Fixpoint parse_data (is_ext : bool) (str : string) (i n : nat)
    (bytes : list N) : result (list N) :=
  match n with
  | O => Ok bytes
  | S n' =>
      let pos := (if is_ext then 2 + EXT_ID_LEN + i * 2
                  else 2 + STD_ID_LEN + i * 2)%nat in
      match JS.Number_hex (JS.substr pos 2 str) with
      | None => Err (InvalidDataByte i)
      | Some b => parse_data is_ext str (S i) n' (bytes ++ [b])
      end
  end.

Definition _parseFrame (str : string) : result frame :=
  ty <- frame_type str ;;
  let '(is_ext, is_rem) := ty in
  let id_field := if is_ext then JS.substr 1 EXT_ID_LEN str
                  else JS.substr 1 STD_ID_LEN str in
  match JS.Number_hex id_field with
  | None => Err InvalidIdentifier
  | Some i =>
      let dlc_field := if is_ext then JS.substr (1 + EXT_ID_LEN) 1 str
                       else JS.substr (1 + STD_ID_LEN) 1 str in
      match JS.Number_char dlc_field with
      | None => Err InvalidDlc
      | Some d =>
          (* [dlc < 0] holds of no value that [Number_char] returns *)
          if 8 <? d then Err InvalidDlc
          else
            bytes <- parse_data is_ext str 0 (N.to_nat d) [] ;;
            let res := new_frame i in
            Ok {| id := id res; dlc := d; timestamp := timestamp res;
                  data := bytes; is_ext_id := is_ext_id res;
                  is_remote := is_rem; id_ext_id := Some is_ext |}
      end
  end.

(** ** Stream reassembly ([canbus.slcan.prototype._serialRecvCallback]) *)

(** The two fields of the [canbus.slcan] object that the receive path
    uses. *)
Record slcan : Type := mkSlcan {
  _recv_count : N;
  _recv_str : string
}.

(** State of a [canbus.slcan] as its constructor leaves it. *)
Definition new_slcan : slcan :=
  {| _recv_count := 0; _recv_str := EmptyString |}.

(** [frame.timestamp = t] *)
Definition set_timestamp (t : N) (f : frame) : frame :=
  {| id := id f; dlc := dlc f; timestamp := Some t; data := data f;
     is_ext_id := is_ext_id f; is_remote := is_remote f;
     id_ext_id := id_ext_id f |}.

(** What one call leaves behind: the object, the frames handed to
    [recvFrameCallback] so far, in order, and the exception that ended the
    call, if one did.  The callback is the host's; what the model keeps of
    it is the sequence of its invocations. *)
Record outcome : Type := mkOutcome {
  obj : slcan;
  calls : list frame;
  thrown : option exn
}.

(** One call of the receive callback on the bytes [bytes] of
    [received.data].  [now] is what [Date.now()] returns during the call.
    [cbs] are the frames already handed to [recvFrameCallback].  An
    exception of [_parseFrame] leaves the loop: the bytes after it are not
    read. *)
Fixpoint _serialRecvCallback (now : N) (st : slcan) (cbs : list frame)
    (bytes : list byte) : outcome :=
  match bytes with
  | [] => {| obj := st; calls := cbs; thrown := None |}
  | b :: rest =>
      let char := ascii_of_byte b in
      let st := {| _recv_count := _recv_count st + 1;
                   _recv_str := _recv_str st |} in
      if (char =? JS.CR)%char then
        let tmp := _recv_str st in
        let st := {| _recv_count := 0; _recv_str := EmptyString |} in
        match _parseFrame tmp with
        | Err e => {| obj := st; calls := cbs; thrown := Some e |}
        | Ok fr =>
            _serialRecvCallback now st (cbs ++ [set_timestamp now fr]) rest
        end
      else
        _serialRecvCallback now
          {| _recv_count := _recv_count st;
             _recv_str := _recv_str st ++ String char EmptyString |}
          cbs rest
  end.

(** A sequence of receive calls, each with its clock reading and its chunk
    of bytes.  The transport calls the listener again after a call that
    threw; the exceptions are collected in order. *)
Fixpoint receive_all (st : slcan) (cbs : list frame) (exns : list exn)
    (chunks : list (N * list byte)) : slcan * list frame * list exn :=
  match chunks with
  | [] => (st, cbs, exns)
  | (now, bytes) :: more =>
      let o := _serialRecvCallback now st cbs bytes in
      receive_all (obj o) (calls o)
        (match thrown o with Some e => exns ++ [e] | None => exns end)
        more
  end.

(** The bytes of a string, as [_serialWrite] packs them. *)
Definition bytes_of (s : string) : list byte := list_byte_of_string s.

Definition cr : string := String JS.CR EmptyString.

(** ** The wire format in closed form, and the predicates of the
       specification *)

Module Wire.
Import JS.

(** The string without its first [k] characters. *)
Fixpoint drop (k : nat) (s : string) : string :=
  match k, s with
  | O, _ => s
  | S _, EmptyString => EmptyString
  | S k', String _ s' => drop k' s'
  end.

Fixpoint zeros (n : nat) : string :=
  match n with
  | O => EmptyString
  | S n' => String "0" (zeros n')
  end.

(** The identifier field as [_packFrame] renders it at width [w]. *)
Definition id_field (w : nat) (i : N) : string :=
  let id_str := "0000000" ++ toString 16 i in
  substr_from (String.length id_str - w) id_str.

(** A data byte as the loop of [_packFrame] renders it. *)
Definition hex2 (b : N) : string :=
  let byte_str := "0" ++ toUpperCase (toString 16 b) in
  substr_from (String.length byte_str - 2) byte_str.

Fixpoint hex_bytes (l : list N) : string :=
  match l with
  | [] => EmptyString
  | b :: l' => hex2 b ++ hex_bytes l'
  end.

Definition type_char (f : frame) : ascii :=
  match is_ext_id f, is_remote f with
  | false, false => "t"
  | false, true => "r"
  | true, false => "T"
  | true, true => "R"
  end%char.

Definition id_len (ext : bool) : nat :=
  if ext then EXT_ID_LEN else STD_ID_LEN.

(** Type character, identifier field and DLC digit of the command that
    [_packFrame] builds. *)
Definition header (f : frame) : string :=
  String (type_char f) (id_field (id_len (is_ext_id f)) (id f)
                        ++ toString 10 (dlc f)).

End Wire.

Definition is_byte (b : N) : Prop := b < 256.

Definition id_in_range (f : frame) : Prop :=
  id f < (if is_ext_id f then 2 ^ 29 else 2 ^ 11).

(** The invariants of a Frame as the data model of the specification lists
    them; [data] holds byte values. *)
Definition frame_invariants (f : frame) : Prop :=
  dlc f <= 8 /\
  (is_remote f = false -> N.of_nat (List.length (data f)) = dlc f) /\
  Forall is_byte (data f) /\
  id_in_range f.

Definition same_but_timestamp (f f' : frame) : Prop :=
  id f' = id f /\ dlc f' = dlc f /\ data f' = data f /\
  is_ext_id f' = is_ext_id f /\ is_remote f' = is_remote f.

(** Parsing the command that the encoder returns for [f], without its
    terminator, gives [f] back up to the timestamp. *)
Definition round_trips (f : frame) : Prop :=
  exists cmd f', _packFrame f = Ok (cmd ++ cr) /\
                 _parseFrame cmd = Ok f' /\ same_but_timestamp f f'.

(** [f] with [is_remote] set. *)
Definition as_remote (f : frame) : frame :=
  {| id := id f; dlc := dlc f; timestamp := timestamp f; data := data f;
     is_ext_id := is_ext_id f; is_remote := true;
     id_ext_id := id_ext_id f |}.

Definition on_ok {A B} (g : A -> B) (r : result A) : result B :=
  match r with
  | Ok a => Ok (g a)
  | Err e => Err e
  end.

Fixpoint exists_char (p : ascii -> bool) (s : string) : bool :=
  match s with
  | EmptyString => false
  | String c s' => p c || exists_char p s'
  end.

Definition is_hex (c : ascii) : bool :=
  match JS.hex_digit c with Some _ => true | None => false end.

(** The identifier field that [_parseFrame] reads. *)
Definition id_chars (ext : bool) (str : string) : string :=
  JS.substr 1 (Wire.id_len ext) str.

(** An identifier field that is empty or holds a character that is neither
    a hexadecimal digit nor white space. *)
Definition bad_id_field (s : string) : bool :=
  (s =? EmptyString)%string ||
  exists_char (fun c => negb (is_hex c) && negb (JS.is_white_space c)) s.

(** An identifier field of full width made of hexadecimal digits only. *)
Definition full_hex_field (ext : bool) (s : string) : bool :=
  (String.length s =? Wire.id_len ext)%nat &&
  negb (exists_char (fun c => negb (is_hex c)) s).

(** The length the parser reads: type character, identifier, DLC digit and
    two characters per data byte. *)
Definition read_length (ext : bool) (d : N) : nat :=
  1 + Wire.id_len ext + 1 + 2 * N.to_nat d.

(** The length a command needs when a remote frame is taken to carry no
    data characters. *)
Definition required_length (ext rem : bool) (d : N) : nat :=
  1 + Wire.id_len ext + 1 + (if rem then 0 else 2 * N.to_nat d).

(** The terminator as a byte of the transport, and byte sequences without
    it. *)
Definition CRb : byte := byte_of_ascii JS.CR.

Definition no_terminator (bs : list byte) : Prop :=
  Forall (fun b => ascii_of_byte b <> JS.CR) bs.

(** The decoder between two commands: nothing accumulated. *)
Definition idle : slcan := {| _recv_count := 0; _recv_str := EmptyString |}.

(** The frames of the concrete scenarios. *)
Definition data_frame (ext : bool) (i d : N) (bytes : list N) : frame :=
  {| id := i; dlc := d; timestamp := None; data := bytes;
     is_ext_id := ext; is_remote := false; id_ext_id := None |}.

Definition remote_frame (ext : bool) (i d : N) (bytes : list N) : frame :=
  {| id := i; dlc := d; timestamp := None; data := bytes;
     is_ext_id := ext; is_remote := true; id_ext_id := None |}.

(** ** The transmit path ([send], [_serialWrite], [_serialOpenCallback]) *)

(** The connection object that [chrome.serial.connect] hands to its
    callback; the codec reads its [connectionId] only. *)
Record connection : Type := mkConnection {
  connectionId : N
}.

(** The fields of the [canbus.slcan] object that the transmit path uses;
    [_conn] is [null] ([None]) until a connection is established. *)
Record serial_port : Type := mkPort {
  _dev_str : string;
  _speed : N;
  _conn : option connection
}.

(** What the transmit path does to the outside: calls of
    [chrome.serial.send] and [chrome.serial.flush], and [console.log]. *)
Inductive effect : Type :=
| SerialSend (cid : N) (buf : list byte)
| SerialFlush (cid : N)
| ConsoleLog (msg : string).

(** What [send] raises: its own "Not connected to serial device", or what
    the encoder or the write raised. *)
Inductive send_exn : Type :=
| NotConnected
| Raised (e : exn).

Inductive send_result : Type :=
| Sent (out : list effect)
| SendErr (e : send_exn).

(** [_serialWrite(str)]: one byte per character, handed to
    [chrome.serial.send] on [this._conn.connectionId]; reading that property
    of [null] raises. *)
Definition _serialWrite (p : serial_port) (str : string)
    : result (list effect) :=
  match _conn p with
  | None => Err TypeError
  | Some c => Ok [SerialSend (connectionId c) (bytes_of str)]
  end.

Definition send (p : serial_port) (f : frame) : send_result :=
  match _conn p with
  | None => SendErr NotConnected
  | Some _ =>
      match _packFrame f with
      | Err e => SendErr (Raised e)
      | Ok slcan_str =>
          match _serialWrite p slcan_str with
          | Err e => SendErr (Raised e)
          | Ok out => Sent out
          end
      end
  end.


(** ** Notions used by the further properties *)



(** No terminator character in a string. *)
Definition no_cr (s : string) : Prop :=
  exists_char (fun c => (c =? JS.CR)%char) s = false.

(** The counter of the decoder is the length of its buffer, and the buffer
    holds no terminator. *)
Definition buffer_ok (st : slcan) : Prop :=
  _recv_count st = N.of_nat (String.length (_recv_str st)) /\
  no_cr (_recv_str st).

(** What holds of a frame that the parser built from a command of type
    [ext]. *)
Definition parsed_ok (ext : bool) (f : frame) : Prop :=
  dlc f <= 8 /\
  List.length (data f) = N.to_nat (dlc f) /\
  Forall is_byte (data f) /\
  id f < 16 ^ N.of_nat (Wire.id_len ext) /\
  timestamp f = None /\
  id_ext_id f = Some ext.


(** Settles the invariants of a concrete frame by evaluation. *)
Ltac check_invariants :=
  unfold frame_invariants, id_in_range, is_byte; cbn;
  repeat match goal with |- _ /\ _ => split end;
  first [ lia | discriminate | reflexivity
        | repeat (constructor; try lia) ].

(** * Facts about the string primitives *)

Module StringFacts.
Import JS Wire.

Lemma length_app (a b : string) :
  String.length (a ++ b) = (String.length a + String.length b)%nat.
Proof. induction a as [|c a IH]; simpl; [reflexivity | now rewrite IH]. Qed.

Lemma app_assoc (a b c : string) : (a ++ b) ++ c = a ++ (b ++ c).
Proof. induction a as [|x a IH]; simpl; [reflexivity | now rewrite IH]. Qed.

Lemma app_empty_r (a : string) : a ++ EmptyString = a.
Proof. induction a as [|x a IH]; simpl; [reflexivity | now rewrite IH]. Qed.

Lemma substr_all (s : string) (n : nat) :
  (String.length s <= n)%nat -> substr 0 n s = s.
Proof.
  revert n; induction s as [|c s IH]; intros n Hn; [reflexivity|].
  destruct n as [|n]; simpl in *; [lia|].
  f_equal; apply IH; lia.
Qed.

Lemma substr_drop (k n : nat) (s : string) :
  substr k n s = substr 0 n (drop k s).
Proof.
  revert k; induction s as [|c s IH]; intros [|k]; simpl; try reflexivity.
  apply IH.
Qed.

Lemma length_drop (k : nat) (s : string) :
  String.length (drop k s) = (String.length s - k)%nat.
Proof.
  revert k; induction s as [|c s IH]; intros [|k]; simpl; try reflexivity.
  apply IH.
Qed.

Lemma substr_from_drop (k : nat) (s : string) : substr_from k s = drop k s.
Proof.
  unfold substr_from. rewrite substr_drop. apply substr_all.
  rewrite length_drop. lia.
Qed.

Lemma drop_app (k : nat) (a b : string) :
  (k <= String.length a)%nat -> drop k (a ++ b) = drop k a ++ b.
Proof.
  revert k; induction a as [|c a IH]; intros [|k] Hk; simpl in *;
    try reflexivity; try lia.
  apply IH; lia.
Qed.

Lemma drop_zeros (k n : nat) : drop k (zeros n) = zeros (n - k).
Proof.
  revert k; induction n as [|n IH]; intros [|k]; simpl; try reflexivity.
  apply IH.
Qed.

Lemma length_zeros (n : nat) : String.length (zeros n) = n.
Proof. induction n; simpl; congruence. Qed.

(** [substr] returns at most [n] characters, so the DLC field is one
    character or none and an identifier field has at most eight. *)
Lemma length_substr (k n : nat) (s : string) :
  (String.length (substr k n s) <= n)%nat.
Proof.
  revert k n; induction s as [|c s IH]; intros k n; simpl; [lia|].
  destruct k as [|k]; [|apply IH].
  destruct n as [|n]; simpl; [lia|]. specialize (IH 0%nat n). lia.
Qed.

(** A read that lies inside [s] does not see what follows [s]. *)
Lemma substr_app_inside (k n : nat) (s e : string) :
  (k + n <= String.length s)%nat -> substr k n (s ++ e) = substr k n s.
Proof.
  revert k n; induction s as [|c s IH]; intros k n H; simpl in *.
  - assert (k = 0 /\ n = 0)%nat as [-> ->] by lia. now destruct e.
  - destruct k as [|k].
    + destruct n as [|n]; [reflexivity|]. f_equal. apply (IH 0%nat); lia.
    + apply IH; lia.
Qed.

Lemma substr_prefix (a b : string) :
  substr 0 (String.length a) (a ++ b) = a.
Proof.
  induction a as [|c a IH]; simpl.
  - now destruct b.
  - now rewrite IH.
Qed.

(** A read that starts after the prefix [a] reads in what follows it. *)
Lemma substr_skip (a b : string) (k n : nat) :
  substr (String.length a + k) n (a ++ b) = substr k n b.
Proof. rewrite substr_drop, (substr_drop k n b).
  f_equal. revert k. induction a as [|c a IH]; intros k; simpl; [reflexivity|].
  apply IH.
Qed.

End StringFacts.

(** * Facts about the number conversions *)

Module NumberFacts.
Import JS Wire StringFacts.

(** A property checked on every number below [n] holds below [n]. *)
Lemma below_forall (n : nat) (p : N -> bool) :
  forallb p (map N.of_nat (seq 0 n)) = true ->
  forall d, d < N.of_nat n -> p d = true.
Proof.
  intros H d Hd. rewrite forallb_forall in H. apply H.
  rewrite <- (N2Nat.id d). apply in_map. apply in_seq. lia.
Qed.

Lemma hex_digit_not_white (c : ascii) (d : N) :
  hex_digit c = Some d -> is_white_space c = false.
Proof.
  revert d.
  destruct c as [[] [] [] [] [] [] [] []]; intros d; vm_compute;
    intros H; first [discriminate H | reflexivity].
Qed.

Lemma hex_digit_char (d : N) : d < 16 -> hex_digit (digit_char d) = Some d.
Proof.
  intros Hd.
  pose (p := fun d => match hex_digit (digit_char d) with
                      | Some v => v =? d
                      | None => false
                      end).
  assert (Hp : p d = true) by (apply (below_forall 16); [reflexivity | exact Hd]).
  unfold p in Hp. destruct (hex_digit (digit_char d)) as [v|]; [|discriminate].
  apply N.eqb_eq in Hp. now subst.
Qed.

Lemma hex_value_app (a : N) (s1 s2 : string) :
  hex_value a (s1 ++ s2) =
  match hex_value a s1 with
  | Some v => hex_value v s2
  | None => None
  end.
Proof.
  revert a; induction s1 as [|c s1 IH]; intros a; simpl; [reflexivity|].
  destruct (hex_digit c); [apply IH | reflexivity].
Qed.

Lemma hex_value_zeros (n : nat) : hex_value 0 (zeros n) = Some 0.
Proof. induction n as [|n IH]; simpl; [reflexivity | exact IH]. Qed.

(** A string of hexadecimal digits has no trailing white space. *)
Lemma trim_end_hex (s : string) (a v : N) :
  hex_value a s = Some v -> trim_end s = s.
Proof.
  revert a; induction s as [|c s IH]; intros a H; simpl in *; [reflexivity|].
  destruct (hex_digit c) as [d|] eqn:Hc; [|discriminate].
  rewrite (IH _ H). rewrite (hex_digit_not_white _ _ Hc).
  now destruct s.
Qed.

Lemma Number_hex_digits (s : string) (v : N) :
  s <> EmptyString -> hex_value 0 s = Some v -> Number_hex s = Some v.
Proof.
  intros Hne H. unfold Number_hex. rewrite (trim_end_hex _ _ _ H).
  destruct s; [contradiction | exact H].
Qed.

(** With enough fuel, [digits] puts the hexadecimal digits of [n] in front
    of [acc]: at least one, no more than needed, and they read back as
    [n]. *)
Lemma digits16_spec (fuel : nat) :
  forall n acc, n < 16 ^ N.of_nat (S fuel) ->
  exists s, digits 16 (S fuel) n acc = s ++ acc /\
    (1 <= String.length s)%nat /\
    (forall a, hex_value a s = Some (a * 16 ^ N.of_nat (String.length s) + n)) /\
    (forall k, (1 <= k)%nat -> n < 16 ^ N.of_nat k -> (String.length s <= k)%nat).
Proof.
  induction fuel as [|fuel IH]; intros n acc Hn;
    cbn [digits]; destruct (n / 16 =? 0) eqn:E.
  1, 3: apply N.eqb_eq in E; apply N.div_small_iff in E; [|lia];
    exists (String (digit_char (n mod 16)) EmptyString);
    rewrite N.mod_small by exact E;
    (split; [reflexivity|]); (split; [simpl; lia|]);
    (split;
     [ intros a; cbn [String.length hex_value];
       rewrite hex_digit_char by exact E;
       change (N.of_nat 1) with 1; rewrite N.pow_1_r; f_equal; lia
     | intros k Hk _; simpl; exact Hk ]).
  - apply N.eqb_neq in E. exfalso. apply E. apply N.div_small. exact Hn.
  - apply N.eqb_neq in E.
    assert (Hge : 16 <= n).
    { destruct (N.lt_ge_cases n 16) as [Hlt|]; [|assumption].
      apply N.div_small in Hlt. contradiction. }
    assert (Hq : n / 16 < 16 ^ N.of_nat (S fuel)).
    { apply N.Div0.div_lt_upper_bound.
      rewrite (Nat2N.inj_succ (S fuel)), N.pow_succ_r' in Hn. exact Hn. }
    destruct (IH (n / 16) (String (digit_char (n mod 16)) acc) Hq)
      as (s & Hs & Hlen & Hval & Hmax).
    exists (s ++ String (digit_char (n mod 16)) EmptyString).
    rewrite app_assoc. simpl. split; [exact Hs|].
    rewrite length_app. simpl. split; [lia|]. split.
    + intros a. rewrite hex_value_app, Hval. cbn [hex_value].
      rewrite hex_digit_char by (apply N.mod_lt; lia).
      f_equal.
      replace (N.of_nat (String.length s + 1))
        with (N.succ (N.of_nat (String.length s))) by lia.
      rewrite N.pow_succ_r'.
      pose proof (N.div_mod n 16 ltac:(lia)) as Hdm.
      set (q := n / 16) in *. set (r := n mod 16) in *.
      set (w := 16 ^ N.of_nat (String.length s)) in *. lia.
    + intros k Hk Hnk.
      destruct k as [|k]; [lia|].
      destruct k as [|k].
      { simpl in Hnk. lia. }
      assert (String.length s <= S k)%nat; [|lia].
      apply Hmax; [lia|].
      apply N.Div0.div_lt_upper_bound.
      rewrite (Nat2N.inj_succ (S k)), N.pow_succ_r' in Hnk. exact Hnk.
Qed.

Lemma toString16_spec (n : N) :
  (1 <= String.length (toString 16 n))%nat /\
  (forall a, hex_value a (toString 16 n) =
             Some (a * 16 ^ N.of_nat (String.length (toString 16 n)) + n)) /\
  (forall k, (1 <= k)%nat -> n < 16 ^ N.of_nat k ->
             (String.length (toString 16 n) <= k)%nat).
Proof.
  unfold toString.
  assert (Hfuel : n < 16 ^ N.of_nat (S (N.to_nat (N.log2 n)))).
  { rewrite Nat2N.inj_succ, N2Nat.id.
    apply N.lt_le_trans with (2 ^ N.succ (N.log2 n)).
    - destruct n as [|p]; [reflexivity|].
      apply N.log2_spec. lia.
    - apply N.pow_le_mono_l. lia. }
  destruct (digits16_spec _ n EmptyString Hfuel) as (s & Hs & H).
  rewrite Hs, app_empty_r. exact H.
Qed.

End NumberFacts.

(** * Facts about the encoder's fields *)

Module FieldFacts.
Import JS Wire StringFacts NumberFacts.

Lemma id_field_spec (w : nat) (i : N) :
  (1 <= w <= 8)%nat -> i < 16 ^ N.of_nat w ->
  String.length (id_field w i) = w /\ Number_hex (id_field w i) = Some i.
Proof.
  intros Hw Hi. unfold id_field.
  destruct (toString16_spec i) as (Hlen & Hval & Hmax).
  specialize (Hmax w (proj1 Hw) Hi).
  set (s := toString 16 i) in *.
  change "0000000" with (zeros 7).
  rewrite substr_from_drop, length_app, length_zeros.
  rewrite drop_app by (rewrite length_zeros; lia).
  rewrite drop_zeros.
  replace (7 - (7 + String.length s - w))%nat with (w - String.length s)%nat by lia.
  split.
  - rewrite length_app, length_zeros. lia.
  - apply Number_hex_digits.
    + destruct s; [simpl in Hlen; lia|].
      destruct (w - _)%nat; discriminate.
    + rewrite hex_value_app, hex_value_zeros, Hval. reflexivity.
Qed.

Lemma hex2_spec (b : N) :
  b < 256 -> String.length (hex2 b) = 2%nat /\ Number_hex (hex2 b) = Some b.
Proof.
  intros Hb.
  pose (p := fun b => (String.length (hex2 b) =? 2)%nat &&
                      match Number_hex (hex2 b) with
                      | Some v => v =? b
                      | None => false
                      end).
  assert (Hp : p b = true)
    by (apply (below_forall 256); [vm_compute; reflexivity | exact Hb]).
  unfold p in Hp. apply andb_prop in Hp as [H1 H2].
  apply Nat.eqb_eq in H1. split; [exact H1|].
  destruct (Number_hex (hex2 b)) as [v|]; [|discriminate].
  apply N.eqb_eq in H2. now subst.
Qed.

(** The DLC digit of the encoder reads back as the DLC. *)
Lemma dlc_digit_spec (d : N) :
  d <= 8 ->
  String.length (toString 10 d) = 1%nat /\
  Number_char (toString 10 d) = Some d.
Proof.
  intros Hd.
  pose (p := fun d => (String.length (toString 10 d) =? 1)%nat &&
                      match Number_char (toString 10 d) with
                      | Some v => v =? d
                      | None => false
                      end).
  assert (Hp : p d = true)
    by (apply (below_forall 9); [vm_compute; reflexivity | lia]).
  unfold p in Hp. apply andb_prop in Hp as [H1 H2].
  apply Nat.eqb_eq in H1. split; [exact H1|].
  destruct (Number_char (toString 10 d)) as [v|]; [|discriminate].
  apply N.eqb_eq in H2. now subst.
Qed.

End FieldFacts.

(** * The encoder *)

Module Encoder.
Import JS Wire StringFacts NumberFacts FieldFacts.

Lemma skipn_nth_error {A} (l : list A) (i : nat) (x : A) :
  nth_error l i = Some x -> skipn i l = x :: skipn (S i) l.
Proof.
  revert i; induction l as [|y l IH]; intros [|i] H; simpl in *;
    try discriminate.
  - now inversion H.
  - apply IH, H.
Qed.

Lemma pack_byte_some (f : frame) (i : nat) (b : N) :
  nth_error (data f) i = Some b -> pack_byte f i = Ok (hex2 b).
Proof. intros H. unfold pack_byte. now rewrite H. Qed.

(** The loop appends the first [n] bytes from index [i] on, when the array
    holds that many. *)
Lemma pack_data_ok (f : frame) (n : nat) :
  forall i res, (i + n <= List.length (data f))%nat ->
  pack_data f i n res = Ok (res ++ hex_bytes (firstn n (skipn i (data f)))).
Proof.
  induction n as [|n IH]; intros i res H; simpl.
  - now rewrite app_empty_r.
  - destruct (nth_error (data f) i) as [b|] eqn:Hb.
    + rewrite (pack_byte_some _ _ _ Hb). cbn [bind].
      rewrite IH by lia. rewrite (skipn_nth_error _ _ _ Hb).
      cbn [firstn hex_bytes]. now rewrite app_assoc.
    + apply nth_error_None in Hb. lia.
Qed.

(** The loop raises when it runs past the end of the array. *)
Lemma pack_data_short (f : frame) (n : nat) :
  forall i res, (i <= List.length (data f) < i + n)%nat ->
  pack_data f i n res = Err TypeError.
Proof.
  induction n as [|n IH]; intros i res H; simpl; [lia|].
  destruct (nth_error (data f) i) as [b|] eqn:Hb.
  - rewrite (pack_byte_some _ _ _ Hb). cbn [bind].
    assert (i < List.length (data f))%nat
      by (apply nth_error_Some; congruence).
    apply IH. lia.
  - unfold pack_byte. now rewrite Hb.
Qed.

Lemma packFrame_header (f : frame) :
  _packFrame f =
  (res <- pack_data f 0 (N.to_nat (dlc f)) (header f) ;; Ok (res ++ cr)).
Proof.
  unfold _packFrame, header, type_char, id_field, id_len.
  destruct (is_ext_id f), (is_remote f); reflexivity.
Qed.

End Encoder.

(** * The parser *)

Module Parser.
Import JS Wire StringFacts NumberFacts FieldFacts.

Lemma substr_prefix_len (a b : string) (n : nat) :
  String.length a = n -> substr 0 n (a ++ b) = a.
Proof. intros <-. apply substr_prefix. Qed.

Lemma substr_skip_len (a b : string) (n m : nat) :
  String.length a = n -> substr n m (a ++ b) = substr 0 m b.
Proof.
  intros <-. rewrite <- (Nat.add_0_r (String.length a)). apply substr_skip.
Qed.

(** The loop reads back the bytes that follow a prefix of the expected
    length, whatever comes after them. *)
Lemma parse_data_spec (ext : bool) (l : list N) :
  forall p acc i tail,
  String.length p = (2 + id_len ext + i * 2)%nat ->
  Forall is_byte l ->
  parse_data ext (p ++ hex_bytes l ++ tail) i (List.length l) acc
  = Ok (acc ++ l)%list.
Proof.
  induction l as [|b l IH]; intros p acc i tail Hp Hl;
    cbn [parse_data hex_bytes List.length].
  - now rewrite app_nil_r.
  - inversion Hl as [|? ? Hb Hl']; subst.
    destruct (hex2_spec b Hb) as [Hlen Hnum].
    assert (Hpos : (if ext then 2 + EXT_ID_LEN + i * 2
                    else 2 + STD_ID_LEN + i * 2)%nat = String.length p)
      by (rewrite Hp; destruct ext; reflexivity).
    rewrite Hpos.
    rewrite (app_assoc (hex2 b)).
    rewrite (substr_skip_len p _ _ 2 eq_refl).
    rewrite (substr_prefix_len _ _ 2 Hlen), Hnum.
    rewrite <- (app_assoc p).
    rewrite IH; [now rewrite <- List.app_assoc | | exact Hl'].
    rewrite length_app, Hlen, Hp. lia.
Qed.

Lemma frame_type_char (c : ascii) (s : string) :
  frame_type (String c s) = frame_type (String c EmptyString).
Proof. reflexivity. Qed.

Lemma frame_type_of (f : frame) :
  frame_type (String (type_char f) EmptyString) = Ok (is_ext_id f, is_remote f).
Proof. unfold type_char. destruct (is_ext_id f), (is_remote f); reflexivity. Qed.

(** A command made of a type character, an identifier field of full
    width, a DLC digit and that many data bytes parses to the frame with
    these values, whatever follows the last byte. *)
Lemma parse_shape (c : ascii) (ext rem : bool) (idf ds tail : string)
    (i d : N) (l : list N) :
  frame_type (String c EmptyString) = Ok (ext, rem) ->
  String.length idf = id_len ext -> Number_hex idf = Some i ->
  String.length ds = 1%nat -> Number_char ds = Some d -> d <= 8 ->
  List.length l = N.to_nat d -> Forall is_byte l ->
  _parseFrame (String c (idf ++ ds ++ hex_bytes l ++ tail)) =
  Ok {| id := i; dlc := d; timestamp := None; data := l;
        is_ext_id := false; is_remote := rem; id_ext_id := Some ext |}.
Proof.
  intros Hty Hidl Hid Hdsl Hds Hd Hl Hbytes.
  unfold _parseFrame. rewrite frame_type_char, Hty. cbn [bind].
  assert (Hidf : (if ext
                  then substr 1 EXT_ID_LEN (String c (idf ++ ds ++ hex_bytes l ++ tail))
                  else substr 1 STD_ID_LEN (String c (idf ++ ds ++ hex_bytes l ++ tail)))
                 = idf).
  { destruct ext; cbn [substr EXT_ID_LEN STD_ID_LEN];
      apply substr_prefix_len; exact Hidl. }
  rewrite Hidf, Hid.
  assert (Hdf : (if ext
                 then substr (1 + EXT_ID_LEN) 1 (String c (idf ++ ds ++ hex_bytes l ++ tail))
                 else substr (1 + STD_ID_LEN) 1 (String c (idf ++ ds ++ hex_bytes l ++ tail)))
                = ds).
  { destruct ext; cbn [substr EXT_ID_LEN STD_ID_LEN Nat.add];
      rewrite (substr_skip_len idf _ _ 1 Hidl);
      apply substr_prefix_len; exact Hdsl. }
  rewrite Hdf, Hds.
  replace (8 <? d) with false by (symmetry; apply N.ltb_ge; exact Hd).
  rewrite <- Hl.
  change (String c (idf ++ ds ++ hex_bytes l ++ tail))
    with (String c EmptyString ++ (idf ++ ds ++ hex_bytes l ++ tail)).
  rewrite <- (app_assoc idf), <- (app_assoc (String c EmptyString)).
  rewrite parse_data_spec; [reflexivity | | exact Hbytes].
  rewrite !length_app, Hidl, Hdsl. simpl. lia.
Qed.

End Parser.

(** * The stream decoder *)

Module Stream.
Import JS StringFacts.

Lemma string_of_bytes_app (a b : list byte) :
  string_of_list_byte (a ++ b)%list =
  string_of_list_byte a ++ string_of_list_byte b.
Proof.
  unfold string_of_list_byte. induction a as [|x a IH]; simpl;
    [reflexivity | now rewrite IH].
Qed.

(** Bytes before the terminator are appended to the buffer and nothing
    else happens. *)
Lemma recv_accumulate (now : N) (bs : list byte) :
  forall st cbs, no_terminator bs ->
  _serialRecvCallback now st cbs bs =
  {| obj := {| _recv_count := _recv_count st + N.of_nat (List.length bs);
               _recv_str := _recv_str st ++ string_of_list_byte bs |};
     calls := cbs; thrown := None |}.
Proof.
  induction bs as [|b bs IH]; intros st cbs Hbs.
  - simpl. rewrite N.add_0_r, app_empty_r. now destruct st.
  - inversion Hbs as [|? ? Hb Hbs']; subst.
    cbn [_serialRecvCallback]. apply Ascii.eqb_neq in Hb. rewrite Hb.
    rewrite IH by exact Hbs'. cbn [_recv_count _recv_str].
    rewrite app_assoc. do 2 f_equal.
    rewrite <- N.add_assoc. f_equal. cbn [List.length]. lia.
Qed.

(** A call on [b1 ++ b2] is the call on [b1] followed, unless it threw,
    by the call on [b2]. *)
Lemma recv_app (now : N) (b1 b2 : list byte) :
  forall st cbs,
  _serialRecvCallback now st cbs (b1 ++ b2)%list =
  let o := _serialRecvCallback now st cbs b1 in
  match thrown o with
  | Some _ => o
  | None => _serialRecvCallback now (obj o) (calls o) b2
  end.
Proof.
  induction b1 as [|b b1 IH]; intros st cbs; [reflexivity|].
  cbn [List.app _serialRecvCallback].
  destruct (ascii_of_byte b =? CR)%char.
  - destruct (_parseFrame (_recv_str _)); [apply IH | reflexivity].
  - apply IH.
Qed.

Lemma CRb_is_CR : (ascii_of_byte CRb =? CR)%char = true.
Proof. reflexivity. Qed.

(** The terminator takes the buffer as the command, clears the buffer and
    parses the command. *)
Lemma recv_terminator (now : N) (st : slcan) (cbs : list frame) :
  _serialRecvCallback now st cbs [CRb] =
  match _parseFrame (_recv_str st) with
  | Ok f => {| obj := idle; calls := (cbs ++ [set_timestamp now f])%list;
               thrown := None |}
  | Err e => {| obj := idle; calls := cbs; thrown := Some e |}
  end.
Proof.
  cbn [_serialRecvCallback]. rewrite CRb_is_CR. cbn [_recv_str].
  destruct (_parseFrame (_recv_str st)); reflexivity.
Qed.

Lemma receive_all_app (c1 c2 : list (N * list byte)) :
  forall st cbs exns,
  receive_all st cbs exns (c1 ++ c2)%list =
  let '(st', cbs', exns') := receive_all st cbs exns c1 in
  receive_all st' cbs' exns' c2.
Proof.
  induction c1 as [|[now bs] c1 IH]; intros st cbs exns; simpl.
  - reflexivity.
  - apply IH.
Qed.

(** Calls without bytes change nothing. *)
Lemma receive_all_empty (chunks : list (N * list byte)) :
  forall st cbs exns, List.concat (map snd chunks) = [] ->
  receive_all st cbs exns chunks = (st, cbs, exns).
Proof.
  induction chunks as [|[now bs] chunks IH]; intros st cbs exns H; simpl in *.
  - reflexivity.
  - apply app_eq_nil in H as [-> H]. simpl. now apply IH.
Qed.

(** How the first chunk of a terminated command can end: inside the
    command, or with its terminator. *)
Lemma chunk_split (bs m cmd : list byte) :
  (bs ++ m = cmd ++ [CRb])%list ->
  (exists rest, cmd = bs ++ rest /\ m = rest ++ [CRb])%list \/
  (bs = cmd ++ [CRb] /\ m = [])%list.
Proof.
  intros H. apply app_eq_app in H as [l [[-> H]|[-> H]]].
  - destruct l as [|x l].
    + left. exists []. rewrite !app_nil_r. simpl in H. now subst.
    + right. inversion H as [[Hx Hl]]. 
      symmetry in Hl. apply app_eq_nil in Hl as [-> ->]. now split.
  - left. exists l. now split.
Qed.

Lemma no_terminator_app (a b : list byte) :
  no_terminator (a ++ b)%list -> no_terminator a /\ no_terminator b.
Proof. apply Forall_app. Qed.

(** One terminated command, delivered in any chunks, starting with [buf]
    already in the buffer: the command is parsed once, when its
    terminator arrives. *)
Lemma receive_command (chunks : list (N * list byte)) :
  forall st cbs exns cmd,
  no_terminator cmd ->
  List.concat (map snd chunks) = (cmd ++ [CRb])%list ->
  exists t, In t (map fst chunks) /\
    receive_all st cbs exns chunks =
    match _parseFrame (_recv_str st ++ string_of_list_byte cmd) with
    | Ok f => (idle, (cbs ++ [set_timestamp t f])%list, exns)
    | Err e => (idle, cbs, (exns ++ [e])%list)
    end.
Proof.
  induction chunks as [|[now bs] chunks IH]; intros st cbs exns cmd Hcmd Hcat.
  - destruct cmd; discriminate.
  - cbn [map List.concat fst snd] in Hcat.
    apply chunk_split in Hcat as [(rest & -> & Hrest)|[-> Hnil]].
    + apply no_terminator_app in Hcmd as [Hbs Hr].
      cbn [receive_all]. rewrite (recv_accumulate now bs st cbs Hbs).
      cbn [obj calls thrown].
      destruct (IH {| _recv_count := _recv_count st + N.of_nat (List.length bs);
                      _recv_str := _recv_str st ++ string_of_list_byte bs |}
                   cbs exns rest Hr Hrest) as (t & Ht & Hrun).
      exists t. split; [right; exact Ht|].
      rewrite Hrun. cbn [_recv_str].
      now rewrite string_of_bytes_app, app_assoc.
    + exists now. split; [left; reflexivity|].
      cbn [receive_all]. rewrite recv_app.
      rewrite (recv_accumulate now cmd st cbs Hcmd).
      cbn [obj calls thrown]. rewrite recv_terminator. cbn [_recv_str].
      destruct (_parseFrame _); cbn [obj calls thrown];
        now apply receive_all_empty.
Qed.

End Stream.

(** * What the parser reads and what it rejects *)

Module ParserFacts.
Import JS Wire StringFacts NumberFacts.

(** The data loop looks at positions from 2 on only. *)
Lemma parse_data_head (ext : bool) (c c' : ascii) (rest : string) (n : nat) :
  forall i acc,
  parse_data ext (String c rest) i n acc =
  parse_data ext (String c' rest) i n acc.
Proof.
  induction n as [|n IH]; intros i acc; cbn [parse_data]; [reflexivity|].
  destruct ext; cbn [Nat.add EXT_ID_LEN STD_ID_LEN substr];
    destruct (Number_hex _); auto.
Qed.

Lemma parse_data_error (ext : bool) (str : string) (n : nat) :
  forall i acc e, parse_data ext str i n acc = Err e ->
  exists j, e = InvalidDataByte j.
Proof.
  induction n as [|n IH]; intros i acc e H; cbn [parse_data] in H;
    [discriminate|].
  destruct (Number_hex _).
  - eapply IH, H.
  - inversion H. now exists i.
Qed.

(** Once the type character is known, the parser is this chain of
    reads. *)
Lemma parseFrame_typed (str : string) (ext rem : bool) :
  frame_type str = Ok (ext, rem) ->
  _parseFrame str =
  match Number_hex (id_chars ext str) with
  | None => Err InvalidIdentifier
  | Some i =>
      match Number_char (substr (1 + id_len ext) 1 str) with
      | None => Err InvalidDlc
      | Some d =>
          if 8 <? d then Err InvalidDlc
          else on_ok (fun bytes =>
                 {| id := i; dlc := d; timestamp := None; data := bytes;
                    is_ext_id := false; is_remote := rem;
                    id_ext_id := Some ext |})
                 (parse_data ext str 0 (N.to_nat d) [])
      end
  end.
Proof.
  intros Hty. unfold _parseFrame, id_chars, id_len. rewrite Hty. cbn [bind].
  destruct ext;
    (destruct (Number_hex _); [|reflexivity];
     destruct (Number_char _); [|reflexivity];
     destruct (8 <? _); [reflexivity|];
     destruct (parse_data _ _ _ _ _); reflexivity).
Qed.

(** A remote-frame command is read exactly as the data-frame command with
    the same characters after the type character. *)
Lemma parse_remote_as_data (c c' : ascii) (ext : bool) (rest : string) :
  frame_type (String c EmptyString) = Ok (ext, true) ->
  frame_type (String c' EmptyString) = Ok (ext, false) ->
  _parseFrame (String c rest) = on_ok as_remote (_parseFrame (String c' rest)).
Proof.
  intros Hc Hc'.
  rewrite (parseFrame_typed (String c rest) ext true) by exact Hc.
  rewrite (parseFrame_typed (String c' rest) ext false) by exact Hc'.
  unfold id_chars, id_len.
  destruct ext; cbn [Nat.add EXT_ID_LEN STD_ID_LEN substr];
    (destruct (Number_hex _); [|reflexivity];
     destruct (Number_char _); [|reflexivity];
     destruct (8 <? _); [reflexivity|];
     rewrite (parse_data_head _ c c');
     destruct (parse_data _ _ _ _ _); reflexivity).
Qed.

(** ** Rejected identifier fields *)

Lemma trim_end_keeps (p : ascii -> bool) (s : string) :
  (forall c, p c = true -> is_white_space c = false) ->
  exists_char p s = true -> exists_char p (trim_end s) = true.
Proof.
  intros Hp. induction s as [|c s IH]; intros H; [discriminate|].
  cbn [exists_char trim_end] in *.
  destruct (p c) eqn:Hc.
  - rewrite (Hp c Hc). destruct (trim_end s); cbn [exists_char];
      now rewrite Hc.
  - cbn [orb] in H. specialize (IH H).
    destruct (trim_end s) as [|x t]; [discriminate|].
    cbn [exists_char] in *. rewrite IH. apply orb_true_r.
Qed.

Lemma hex_value_non_hex (s : string) :
  forall a, exists_char (fun c => negb (is_hex c)) s = true ->
  hex_value a s = None.
Proof.
  induction s as [|c s IH]; intros a H; [discriminate|].
  cbn [exists_char hex_value] in *. unfold is_hex in H.
  destruct (hex_digit c); [apply IH, H | reflexivity].
Qed.

Lemma exists_char_weaken (p q : ascii -> bool) (s : string) :
  (forall c, p c = true -> q c = true) ->
  exists_char p s = true -> exists_char q s = true.
Proof.
  intros Hpq. induction s as [|c s IH]; intros H; [discriminate|].
  cbn [exists_char] in *. apply orb_true_iff in H as [H|H].
  - now rewrite (Hpq c H).
  - rewrite (IH H). apply orb_true_r.
Qed.

Lemma Number_hex_bad (s : string) :
  bad_id_field s = true -> Number_hex s = None.
Proof.
  unfold bad_id_field, Number_hex. intros H.
  apply orb_true_iff in H as [H|H].
  - apply String.eqb_eq in H. now subst.
  - apply trim_end_keeps in H.
    + destruct (trim_end s) as [|x t] eqn:Ht; [reflexivity|].
      apply hex_value_non_hex.
      revert H. apply exists_char_weaken.
      intros c Hc. now apply andb_prop in Hc as [-> _].
    + intros c Hc. apply andb_prop in Hc as [_ Hc].
      now apply negb_true_iff in Hc.
Qed.

Lemma hex_value_all_hex (s : string) :
  forall a, exists_char (fun c => negb (is_hex c)) s = false ->
  exists v, hex_value a s = Some v.
Proof.
  induction s as [|c s IH]; intros a H; [now exists a|].
  cbn [exists_char hex_value] in *. apply orb_false_iff in H as [Hc H].
  unfold is_hex in Hc. destruct (hex_digit c); [apply IH, H | discriminate].
Qed.

Lemma Number_hex_full (ext : bool) (s : string) :
  full_hex_field ext s = true -> exists v, Number_hex s = Some v.
Proof.
  unfold full_hex_field. intros H. apply andb_prop in H as [Hlen Hhex].
  apply Nat.eqb_eq in Hlen. apply negb_true_iff in Hhex.
  destruct (hex_value_all_hex s 0 Hhex) as [v Hv].
  exists v. apply Number_hex_digits; [|exact Hv].
  intros ->. destruct ext; discriminate.
Qed.

(** The frame that the parser returns has no timestamp, and its
    [is_ext_id] is the one of the constructor. *)
Lemma parsed_frame_defaults (str : string) (f : frame) :
  _parseFrame str = Ok f -> timestamp f = None /\ is_ext_id f = false.
Proof.
  unfold _parseFrame. destruct (frame_type str) as [[ext rem]|]; cbn [bind];
    [|discriminate].
  destruct (Number_hex _); [|discriminate].
  destruct (Number_char _) as [d|]; [|discriminate].
  destruct (8 <? d); [discriminate|].
  destruct (parse_data _ _ _ _ _); cbn [bind]; [|discriminate].
  intros H. inversion H. now split.
Qed.

(** When the DLC check of the parser rejects a command: the character
    after the identifier converts to no number or to one above 8. *)
Lemma dlc_check (str : string) (ext rem : bool) (i : N) :
  frame_type str = Ok (ext, rem) ->
  Number_hex (id_chars ext str) = Some i ->
  (_parseFrame str = Err InvalidDlc <->
   match Number_char (substr (1 + id_len ext) 1 str) with
   | None => True
   | Some d => 8 < d
   end).
Proof.
  intros Hty Hid. rewrite (parseFrame_typed str ext rem Hty), Hid.
  destruct (Number_char _) as [d|]; [|tauto].
  destruct (8 <? d) eqn:E.
  - apply N.ltb_lt in E. tauto.
  - apply N.ltb_ge in E. split; [|lia].
    destruct (parse_data ext str 0 (N.to_nat d) []) as [bytes|e] eqn:Hpd;
      cbn [on_ok]; [discriminate|].
    destruct (parse_data_error _ _ _ _ _ _ Hpd) as [j ->]. discriminate.
Qed.

(** ** Reads stay inside the command *)

Lemma parse_data_inside (ext : bool) (str extra : string) (n : nat) :
  forall i acc,
  (2 + id_len ext + 2 * (i + n) <= String.length str)%nat ->
  parse_data ext (str ++ extra) i n acc = parse_data ext str i n acc.
Proof.
  induction n as [|n IH]; intros i acc H; cbn [parse_data]; [reflexivity|].
  assert (Hpos : (if ext then 2 + EXT_ID_LEN + i * 2
                  else 2 + STD_ID_LEN + i * 2)%nat
                 = (2 + id_len ext + i * 2)%nat)
    by (destruct ext; reflexivity).
  rewrite Hpos. rewrite substr_app_inside by lia.
  destruct (Number_hex _); [|reflexivity].
  apply IH. lia.
Qed.

Lemma frame_type_app (str extra : string) :
  str <> EmptyString -> frame_type (str ++ extra) = frame_type str.
Proof. destruct str; [contradiction | reflexivity]. Qed.

End ParserFacts.

(** * Round trip through the encoder and the parser *)

Module RoundTrip.
Import JS Wire StringFacts NumberFacts FieldFacts Encoder Parser.

Lemma app_cr_inj (a b : string) : a ++ cr = b ++ cr -> a = b.
Proof.
  revert b; induction a as [|x a IH]; intros [|y b] H; simpl in H.
  - reflexivity.
  - inversion H as [[Hx Hb]]. destruct b; discriminate.
  - inversion H as [[Hx Ha]]. destruct a; discriminate.
  - inversion H. f_equal. now apply IH.
Qed.

Lemma id_width (f : frame) :
  id_in_range f -> id f < 16 ^ N.of_nat (id_len (is_ext_id f)).
Proof.
  unfold id_in_range, id_len. destruct (is_ext_id f); intros H.
  - apply N.lt_le_trans with (2 ^ 29); [exact H | vm_compute; discriminate].
  - apply N.lt_le_trans with (2 ^ 11); [exact H | vm_compute; discriminate].
Qed.

(** The encoder's command for a frame that carries exactly [dlc] bytes. *)
Lemma packFrame_sized (f : frame) :
  List.length (data f) = N.to_nat (dlc f) ->
  _packFrame f = Ok ((header f ++ hex_bytes (data f)) ++ cr).
Proof.
  intros Hlen. rewrite packFrame_header.
  rewrite pack_data_ok by (rewrite Hlen; apply Nat.le_refl). cbn [bind skipn].
  now rewrite <- Hlen, firstn_all.
Qed.

(** What the parser returns on that command: the fields of [f], except
    that the extended flag arrives in [id_ext_id]. *)
Lemma parse_packed (f : frame) :
  dlc f <= 8 -> List.length (data f) = N.to_nat (dlc f) ->
  Forall is_byte (data f) -> id_in_range f ->
  _parseFrame (header f ++ hex_bytes (data f)) =
  Ok {| id := id f; dlc := dlc f; timestamp := None; data := data f;
        is_ext_id := false; is_remote := is_remote f;
        id_ext_id := Some (is_ext_id f) |}.
Proof.
  intros Hd Hlen Hbytes Hid.
  assert (Hw : (1 <= id_len (is_ext_id f) <= 8)%nat)
    by (unfold id_len, EXT_ID_LEN, STD_ID_LEN; destruct (is_ext_id f); lia).
  destruct (id_field_spec _ _ Hw (id_width f Hid)) as [Hidl Hidv].
  destruct (dlc_digit_spec _ Hd) as [Hdl Hdv].
  unfold header. cbn [String.append].
  rewrite app_assoc. rewrite <- (app_empty_r (hex_bytes (data f))).
  apply parse_shape; auto using frame_type_of.
Qed.

End RoundTrip.

(** * The properties of the specification, settled on the code *)

Import JS Wire.

(** ** Round trip *)

(** C1, as stated, fails on two frames that satisfy the invariants: the
    encoder raises on a remote frame with [dlc = 5] and no data, and an
    extended frame comes back from the parser with [is_ext_id] false. *)
Lemma roundtrip_counterexample :
  (frame_invariants (remote_frame false 0x123 5 []) /\
   ~ round_trips (remote_frame false 0x123 5 [])) /\
  (frame_invariants (data_frame true 0x1ABCDEF 0 []) /\
   ~ round_trips (data_frame true 0x1ABCDEF 0 [])).
Proof.
  split; split.
  - check_invariants.
  - intros (cmd & f' & Hpack & _). vm_compute in Hpack. discriminate Hpack.
  - check_invariants.
  - intros (cmd & f' & Hpack & Hparse & Hsame).
    change (_packFrame (data_frame true 28036591 0 []))
      with (Ok ("T01abcdef0" ++ cr)) in Hpack.
    assert (Hcmd : cmd = "T01abcdef0")
      by (apply RoundTrip.app_cr_inj; symmetry; injection Hpack as Hp; exact Hp).
    subst cmd.
    vm_compute in Hparse. inversion Hparse; subst f'.
    destruct Hsame as (_ & _ & _ & Hext & _). discriminate Hext.
Qed.

(** C1, amended: for every frame with [dlc <= 8], exactly [dlc] data bytes
    (remote frames too) and an identifier within the range of its type,
    the encoder returns a command and a terminator, and parsing the command
    returns a frame with the same [id], [dlc], [data] and [is_remote] and no
    timestamp; for a standard frame [is_ext_id] is the same too. *)
Theorem roundtrip_sized_frames (f : frame) :
  dlc f <= 8 ->
  List.length (data f) = N.to_nat (dlc f) ->
  Forall is_byte (data f) ->
  id_in_range f ->
  exists cmd f',
    _packFrame f = Ok (cmd ++ cr) /\ _parseFrame cmd = Ok f' /\
    id f' = id f /\ dlc f' = dlc f /\ data f' = data f /\
    is_remote f' = is_remote f /\ timestamp f' = None /\
    (is_ext_id f = false -> is_ext_id f' = is_ext_id f).
Proof.
  intros Hd Hlen Hbytes Hid.
  exists (header f ++ hex_bytes (data f)).
  eexists. split; [apply RoundTrip.packFrame_sized, Hlen|].
  split; [apply RoundTrip.parse_packed; assumption|].
  cbn. repeat split. intros ->. reflexivity.
Qed.

Lemma roundtrip_sized_frames_witness :
  exists cmd f',
    _packFrame (data_frame false 0x123 2 [0xAB; 0xCD]) = Ok (cmd ++ cr) /\
    _parseFrame cmd = Ok f' /\
    id f' = 0x123 /\ dlc f' = 2 /\ data f' = [0xAB; 0xCD] /\
    is_remote f' = false /\ timestamp f' = None /\
    (false = false -> is_ext_id f' = false).
Proof.
  apply (roundtrip_sized_frames (data_frame false 0x123 2 [0xAB; 0xCD])).
  - simpl. lia.
  - reflexivity.
  - repeat constructor.
  - reflexivity.
Defined.

(** ** Remote frames in the parser *)

(** C2, as stated, fails: parsing "r1235" raises on the first data byte. *)
Lemma remote_r1235_counterexample :
  _parseFrame "r1235" = Err (InvalidDataByte 0).
Proof. reflexivity. Qed.

(** C2, amended: the parser reads a remote-frame command exactly as the
    data-frame command with the same characters after the type character,
    2*dlc data characters included, and only [is_remote] differs in the
    result; "r1235" fails on data byte 0, and "r1230" yields id 0x123,
    dlc 0, no data, [is_ext_id] false and [is_remote] true. *)
Theorem remote_read_as_data (rest : string) :
  _parseFrame (String "r" rest) = on_ok as_remote (_parseFrame (String "t" rest)) /\
  _parseFrame (String "R" rest) = on_ok as_remote (_parseFrame (String "T" rest)) /\
  _parseFrame "r1235" = Err (InvalidDataByte 0) /\
  _parseFrame "r1230" =
    Ok {| id := 0x123; dlc := 0; timestamp := None; data := [];
          is_ext_id := false; is_remote := true; id_ext_id := Some false |}.
Proof.
  split; [|split; [|split]].
  - now apply (ParserFacts.parse_remote_as_data _ _ false).
  - now apply (ParserFacts.parse_remote_as_data _ _ true).
  - reflexivity.
  - reflexivity.
Qed.

(** ** Totality of the encoder *)

(** C3, as stated, fails: a remote frame with [dlc = 5] and empty data
    satisfies the invariants and makes the encoder raise; and with data
    present the encoder appends the bytes of a remote frame. *)
Lemma encode_remote_counterexample :
  frame_invariants (remote_frame false 0x123 5 []) /\
  _packFrame (remote_frame false 0x123 5 []) = Err TypeError /\
  _packFrame (remote_frame false 0x123 2 [0xAB; 0xCD]) = Ok ("r1232ABCD" ++ cr).
Proof.
  split; [check_invariants | split; reflexivity].
Qed.

(** C3, amended: the encoder returns a string exactly when [data] holds
    at least [dlc] elements, remote frame or not, and raises a TypeError
    otherwise; the string is the header, the first [dlc] bytes of [data] as
    two hexadecimal characters each, for a remote frame as for a data frame,
    and the terminator. *)
Theorem packFrame_closed_form (f : frame) :
  _packFrame f =
  if (N.to_nat (dlc f) <=? List.length (data f))%nat
  then Ok ((header f ++ hex_bytes (firstn (N.to_nat (dlc f)) (data f))) ++ cr)
  else Err TypeError.
Proof.
  rewrite Encoder.packFrame_header.
  destruct (N.to_nat (dlc f) <=? List.length (data f))%nat eqn:E.
  - apply Nat.leb_le in E. now rewrite Encoder.pack_data_ok by exact E.
  - apply Nat.leb_gt in E. rewrite Encoder.pack_data_short; [reflexivity|].
    lia.
Qed.

(** ** Fault isolation *)

(** C4, as stated, fails: when the malformed command "t1239" and the valid
    command "t1230" arrive in one receive call, the exception of the parser
    ends the call and the callback is never invoked. *)
Lemma fault_isolation_counterexample :
  _parseFrame "t1239" = Err InvalidDlc /\
  _parseFrame "t1230" =
    Ok {| id := 0x123; dlc := 0; timestamp := None; data := [];
          is_ext_id := false; is_remote := false; id_ext_id := Some false |} /\
  _serialRecvCallback 0 new_slcan []
    (bytes_of ("t1239" ++ cr ++ "t1230" ++ cr)) =
  {| obj := idle; calls := []; thrown := Some InvalidDlc |}.
Proof. repeat split. Qed.

(** C4, amended: when the terminator of the malformed command is the last
    byte of its receive call, so that the valid command arrives in later
    calls, in any chunks, the decoder has cleared the buffer, the call with
    the terminator raises the parse error, and the later calls invoke the
    callback exactly once, for the valid command only. *)
Theorem fault_isolation_across_calls
    (bad good : list byte) (e : exn) (f : frame)
    (chunks1 chunks2 : list (N * list byte))
    (st : slcan) (cbs : list frame) (exns : list exn) :
  _recv_str st = EmptyString ->
  no_terminator bad -> no_terminator good ->
  _parseFrame (string_of_list_byte bad) = Err e ->
  _parseFrame (string_of_list_byte good) = Ok f ->
  List.concat (map snd chunks1) = (bad ++ [CRb])%list ->
  List.concat (map snd chunks2) = (good ++ [CRb])%list ->
  exists t, In t (map fst chunks2) /\
    receive_all st cbs exns (chunks1 ++ chunks2)%list =
    (idle, (cbs ++ [set_timestamp t f])%list, (exns ++ [e])%list).
Proof.
  intros Hst Hbad Hgood Hpb Hpg H1 H2.
  destruct (Stream.receive_command chunks1 st cbs exns bad Hbad H1)
    as (t1 & _ & Hrun1).
  rewrite Hst in Hrun1. cbn [String.append] in Hrun1. rewrite Hpb in Hrun1.
  destruct (Stream.receive_command chunks2 idle cbs (exns ++ [e])%list
              good Hgood H2) as (t & Ht & Hrun2).
  cbn [idle _recv_str String.append] in Hrun2. rewrite Hpg in Hrun2.
  exists t. split; [exact Ht|].
  rewrite Stream.receive_all_app, Hrun1. exact Hrun2.
Qed.

Lemma fault_isolation_across_calls_witness :
  exists t, In t [8; 9] /\
    receive_all new_slcan [] []
      ([(7, bytes_of ("t1239" ++ cr))] ++
       [(8, bytes_of "t12"); (9, bytes_of ("30" ++ cr))])%list =
    (idle,
     ([] ++ [set_timestamp t
               {| id := 0x123; dlc := 0; timestamp := None; data := [];
                  is_ext_id := false; is_remote := false;
                  id_ext_id := Some false |}])%list,
     ([] ++ [InvalidDlc])%list).
Proof.
  apply (fault_isolation_across_calls
           (bytes_of "t1239") (bytes_of "t1230") InvalidDlc
           {| id := 0x123; dlc := 0; timestamp := None; data := [];
              is_ext_id := false; is_remote := false; id_ext_id := Some false |}
           [(7, bytes_of ("t1239" ++ cr))]
           [(8, bytes_of "t12"); (9, bytes_of ("30" ++ cr))]
           new_slcan [] []).
  - reflexivity.
  - repeat constructor; discriminate.
  - repeat constructor; discriminate.
  - reflexivity.
  - reflexivity.
  - reflexivity.
  - reflexivity.
Defined.

(** ** Chunk boundaries *)

(** C5: a command that parses, followed by its terminator and delivered to
    a decoder with an empty buffer in any chunks, makes the decoder invoke
    the callback exactly once, with the parsed frame stamped with the clock
    of the call that brings the terminator, raise nothing and end with an
    empty buffer; this is what one call with all the bytes does. *)
Theorem chunk_boundary_invariance
    (cmd : list byte) (f : frame) (chunks : list (N * list byte)) (now : N)
    (st : slcan) (cbs : list frame) (exns : list exn) :
  _recv_str st = EmptyString ->
  no_terminator cmd ->
  _parseFrame (string_of_list_byte cmd) = Ok f ->
  List.concat (map snd chunks) = (cmd ++ [CRb])%list ->
  exists t, In t (map fst chunks) /\
    receive_all st cbs exns chunks =
      (idle, (cbs ++ [set_timestamp t f])%list, exns) /\
    receive_all st cbs exns [(now, (cmd ++ [CRb])%list)] =
      (idle, (cbs ++ [set_timestamp now f])%list, exns).
Proof.
  intros Hst Hcmd Hparse Hcat.
  destruct (Stream.receive_command chunks st cbs exns cmd Hcmd Hcat)
    as (t & Ht & Hrun).
  rewrite Hst in Hrun. cbn [String.append] in Hrun. rewrite Hparse in Hrun.
  exists t. split; [exact Ht|]. split; [exact Hrun|].
  destruct (Stream.receive_command [(now, (cmd ++ [CRb])%list)] st cbs exns cmd
              Hcmd) as (t' & Ht' & Hone).
  { cbn. now rewrite app_nil_r. }
  rewrite Hst in Hone. cbn [String.append] in Hone. rewrite Hparse in Hone.
  destruct Ht' as [<-|[]]. exact Hone.
Qed.

Lemma chunk_boundary_invariance_witness :
  exists t, In t [1; 2; 3] /\
    receive_all new_slcan [] []
      [(1, bytes_of "t"); (2, bytes_of "1232AB"); (3, bytes_of ("CD" ++ cr))] =
      (idle,
       ([] ++ [set_timestamp t
                 {| id := 0x123; dlc := 2; timestamp := None;
                    data := [0xAB; 0xCD]; is_ext_id := false;
                    is_remote := false; id_ext_id := Some false |}])%list,
       []) /\
    receive_all new_slcan [] [] [(4, (bytes_of "t1232ABCD" ++ [CRb])%list)] =
      (idle,
       ([] ++ [set_timestamp 4
                 {| id := 0x123; dlc := 2; timestamp := None;
                    data := [0xAB; 0xCD]; is_ext_id := false;
                    is_remote := false; id_ext_id := Some false |}])%list,
       []).
Proof.
  apply (chunk_boundary_invariance
           (bytes_of "t1232ABCD")
           {| id := 0x123; dlc := 2; timestamp := None; data := [0xAB; 0xCD];
              is_ext_id := false; is_remote := false; id_ext_id := Some false |}
           [(1, bytes_of "t"); (2, bytes_of "1232AB"); (3, bytes_of ("CD" ++ cr))]
           4 new_slcan [] []).
  - reflexivity.
  - repeat constructor; discriminate.
  - reflexivity.
  - reflexivity.
Defined.

(** ** Fields of the parsed frame *)

(** C6: on the extended command "T01ABCDEF0" the parser returns a frame
    whose [is_ext_id] is false; the flag it decoded is stored under
    [id_ext_id]. *)
Theorem parse_extended_flag_lost :
  _parseFrame "T01ABCDEF0" =
  Ok {| id := 0x1ABCDEF; dlc := 0; timestamp := None; data := [];
        is_ext_id := false; is_remote := false; id_ext_id := Some true |}.
Proof. reflexivity. Qed.

(** ** Identifier validation *)

(** C7, as stated, fails: the standard command "tFFF0" yields a frame with
    identifier 0xFFF, above 0x7FF, and the command "t12", whose identifier
    field has two characters, yields a frame with identifier 0x12. *)
Lemma identifier_counterexample :
  (_parseFrame "tFFF0" =
     Ok {| id := 0xFFF; dlc := 0; timestamp := None; data := [];
           is_ext_id := false; is_remote := false; id_ext_id := Some false |} /\
   0x7FF < 0xFFF) /\
  _parseFrame "t12" =
    Ok {| id := 0x12; dlc := 0; timestamp := None; data := [];
          is_ext_id := false; is_remote := false; id_ext_id := Some false |}.
Proof. repeat split. Qed.

(** C7, amended: for every command with one of the four type characters,
    parsing fails with InvalidIdentifier when the identifier field is empty
    or holds a character that is neither a hexadecimal digit nor white
    space; when the field has its full width and only hexadecimal digits the
    parser does not fail with InvalidIdentifier, whatever the value, and a
    frame it returns carries that value as [id]: no range check is made. *)
Theorem identifier_validation (str : string) (ext rem : bool) :
  frame_type str = Ok (ext, rem) ->
  (bad_id_field (id_chars ext str) = true ->
   _parseFrame str = Err InvalidIdentifier) /\
  (full_hex_field ext (id_chars ext str) = true ->
   _parseFrame str <> Err InvalidIdentifier /\
   forall f, _parseFrame str = Ok f ->
             Number_hex (id_chars ext str) = Some (id f)).
Proof.
  intros Hty. rewrite (ParserFacts.parseFrame_typed str ext rem Hty). split.
  - intros Hbad. now rewrite (ParserFacts.Number_hex_bad _ Hbad).
  - intros Hfull. destruct (ParserFacts.Number_hex_full _ _ Hfull) as [v ->].
    destruct (Number_char _) as [d|]; [|split; [discriminate | discriminate]].
    destruct (8 <? d); [split; discriminate|].
    destruct (parse_data ext str 0 (N.to_nat d) []) as [bytes|e] eqn:Hpd;
      cbn [on_ok].
    + split; [discriminate|]. intros f Hf. now inversion Hf.
    + split; [|discriminate].
      destruct (ParserFacts.parse_data_error _ _ _ _ _ _ Hpd) as [j ->].
      discriminate.
Qed.

Lemma identifier_validation_witness :
  (bad_id_field (id_chars false "tXYZ2ABCD") = true ->
   _parseFrame "tXYZ2ABCD" = Err InvalidIdentifier) /\
  (full_hex_field false (id_chars false "tXYZ2ABCD") = true ->
   _parseFrame "tXYZ2ABCD" <> Err InvalidIdentifier /\
   forall f, _parseFrame "tXYZ2ABCD" = Ok f ->
             Number_hex (id_chars false "tXYZ2ABCD") = Some (id f)).
Proof.
  apply (identifier_validation "tXYZ2ABCD" false false). reflexivity.
Defined.

(** ** DLC validation *)

(** C8: the command "t123", which has no DLC character, and the command
    with a space in its place both parse, to a frame with [dlc = 0]. *)
Theorem missing_dlc_accepted :
  _parseFrame "t123" =
    Ok {| id := 0x123; dlc := 0; timestamp := None; data := [];
          is_ext_id := false; is_remote := false; id_ext_id := Some false |} /\
  _parseFrame "t123 " =
    Ok {| id := 0x123; dlc := 0; timestamp := None; data := [];
          is_ext_id := false; is_remote := false; id_ext_id := Some false |}.
Proof. split; reflexivity. Qed.

(** The boundaries of the DLC that the check of the parser does enforce. *)
Lemma dlc_boundaries :
  _parseFrame "t1230" =
    Ok {| id := 0x123; dlc := 0; timestamp := None; data := [];
          is_ext_id := false; is_remote := false; id_ext_id := Some false |} /\
  _parseFrame "t12380011223344556677" =
    Ok {| id := 0x123; dlc := 8; timestamp := None;
          data := [0x00; 0x11; 0x22; 0x33; 0x44; 0x55; 0x66; 0x77];
          is_ext_id := false; is_remote := false; id_ext_id := Some false |} /\
  _parseFrame "t1239" = Err InvalidDlc /\
  _parseFrame "t123x" = Err InvalidDlc.
Proof. repeat split. Qed.

(** ** The second concrete scenario of the encoder *)

(** C9, as stated, fails: the encoder does not return "T001ABCDEF0\r". *)
Lemma scenario2_counterexample :
  _packFrame (data_frame true 0x1ABCDEF 0 []) <> Ok ("T001ABCDEF0" ++ cr).
Proof. discriminate. Qed.

(** C9, amended: encoding the extended data frame with id 0x1ABCDEF,
    dlc 0 and no data returns "T01abcdef0\r": the identifier in eight
    lower-case hexadecimal digits. *)
Theorem scenario2_encoding :
  _packFrame (data_frame true 0x1ABCDEF 0 []) = Ok ("T01abcdef0" ++ cr).
Proof. reflexivity. Qed.

(** ** Characters after the command *)

(** C10, as stated, fails on a remote frame, whose required length is taken
    without data characters: "r1231A" is long enough and parses, and with
    one more character it parses to a different frame. *)
Lemma trailing_counterexample :
  exists f f',
    frame_type "r1231A" = Ok (false, true) /\
    _parseFrame "r1231A" = Ok f /\
    (required_length false true (dlc f) <= String.length "r1231A")%nat /\
    _parseFrame ("r1231A" ++ "B") = Ok f' /\
    data f = [0xA] /\ data f' = [0xAB].
Proof. do 2 eexists. repeat split. cbn. lia. Qed.

(** C10, amended: for every command that parses and is at least as long as
    what the parser reads (1 type character, 3 or 8 identifier characters,
    1 DLC digit and 2*dlc data characters, for remote frames as well),
    appending any characters still parses and yields the same frame. *)
Theorem trailing_characters_ignored
    (str extra : string) (ext rem : bool) (f : frame) :
  frame_type str = Ok (ext, rem) ->
  _parseFrame str = Ok f ->
  (read_length ext (dlc f) <= String.length str)%nat ->
  _parseFrame (str ++ extra) = Ok f.
Proof.
  intros Hty H Hlen.
  assert (Hne : str <> EmptyString) by (intros ->; discriminate Hty).
  rewrite (ParserFacts.parseFrame_typed _ ext rem) in H by exact Hty.
  rewrite (ParserFacts.parseFrame_typed _ ext rem)
    by (rewrite ParserFacts.frame_type_app; assumption).
  unfold id_chars in *. unfold read_length in Hlen.
  rewrite !StringFacts.substr_app_inside by lia.
  destruct (Number_hex _) as [i|]; [|discriminate].
  destruct (Number_char _) as [d|]; [|discriminate].
  destruct (8 <? d); [discriminate|].
  destruct (parse_data ext str 0 (N.to_nat d) []) as [bytes|e] eqn:Hpd;
    [|discriminate].
  cbn [on_ok] in H. inversion H; subst f. cbn [dlc] in Hlen.
  rewrite ParserFacts.parse_data_inside by lia. now rewrite Hpd.
Qed.

Lemma trailing_characters_ignored_witness :
  _parseFrame ("t1232ABCD" ++ "XYZ") =
  Ok {| id := 0x123; dlc := 2; timestamp := None; data := [0xAB; 0xCD];
        is_ext_id := false; is_remote := false; id_ext_id := Some false |}.
Proof.
  apply (trailing_characters_ignored "t1232ABCD" "XYZ" false false).
  - reflexivity.
  - reflexivity.
  - vm_compute. lia.
Defined.

(** * Further properties of the code *)

(** ** Hexadecimal fields of any value *)

Module HexFacts.
Import JS Wire StringFacts NumberFacts.

Lemma hex_digit_lt (c : ascii) (d : N) : hex_digit c = Some d -> d < 16.
Proof.
  revert d. destruct c as [[] [] [] [] [] [] [] []]; intros d; vm_compute;
    intros H; first [discriminate H | injection H as <-; reflexivity].
Qed.

(** The digits read after an accumulator [a] shift it left. *)
Lemma hex_value_shift (s : string) :
  forall a v, hex_value a s = Some v ->
  exists u, hex_value 0 s = Some u /\
            v = a * 16 ^ N.of_nat (String.length s) + u /\
            u < 16 ^ N.of_nat (String.length s).
Proof.
  induction s as [|c s IH]; intros a v H.
  - exists 0. cbn in *. inversion H. repeat split; lia.
  - cbn [hex_value] in *. destruct (hex_digit c) as [d|] eqn:Hc; [|discriminate].
    pose proof (hex_digit_lt c d Hc) as Hd.
    destruct (IH _ _ H) as (u & Hu & Hv & Hlt).
    replace (16 * 0 + d) with d by lia.
    destruct (hex_value d s) as [w|] eqn:Hw.
    + destruct (IH _ _ Hw) as (u' & Hu' & Hw' & _).
      rewrite Hu in Hu'. inversion Hu'; subst u'.
      exists w. split; [reflexivity|].
      cbn [String.length]. rewrite Nat2N.inj_succ, N.pow_succ_r'.
      set (P := 16 ^ N.of_nat (String.length s)) in *. split; nia.
    + exfalso. clear -Hu Hw Hc.
      assert (forall x y, hex_value x s = None -> hex_value y s = None) as Hind.
      { clear. induction s as [|c s IH]; intros x y; cbn; [discriminate|].
        destruct (hex_digit c); [apply IH | reflexivity]. }
      rewrite (Hind _ 0 Hw) in Hu. discriminate.
Qed.

Lemma hex_value_lt (s : string) (v : N) :
  hex_value 0 s = Some v -> v < 16 ^ N.of_nat (String.length s).
Proof.
  intros H. destruct (hex_value_shift s 0 v H) as (u & Hu & Hv & Hlt). lia.
Qed.

Lemma pow16_split (m n : nat) :
  (m <= n)%nat ->
  16 ^ N.of_nat n = 16 ^ N.of_nat (n - m) * 16 ^ N.of_nat m.
Proof.
  intros H. rewrite <- N.pow_add_r. f_equal. lia.
Qed.

(** The last characters of a string of hexadecimal digits carry its value
    modulo the power of 16 of their number. *)
Lemma hex_value_drop (s : string) :
  forall k n, hex_value 0 s = Some n ->
  hex_value 0 (drop k s) =
  Some (n mod 16 ^ N.of_nat (String.length s - k)).
Proof.
  induction s as [|c s IH]; intros k n H.
  - destruct k; cbn in *; inversion H; reflexivity.
  - destruct k as [|k].
    + cbn [drop]. rewrite Nat.sub_0_r. rewrite H. f_equal. symmetry.
      apply N.mod_small. now apply hex_value_lt.
    + cbn [drop String.length Nat.sub].
      cbn [hex_value] in H. destruct (hex_digit c) as [d|]; [|discriminate].
      destruct (hex_value_shift s _ _ H) as (u & Hu & Hn & _).
      rewrite (IH k u Hu). f_equal. subst n.
      destruct (Nat.le_gt_cases k (String.length s)) as [Hk|Hk].
      * rewrite (pow16_split (String.length s - k) (String.length s)) by lia.
        rewrite N.mul_assoc, N.add_comm, N.Div0.mod_add. reflexivity.
      * replace (String.length s - k)%nat with 0%nat by lia.
        change (16 ^ N.of_nat 0) with 1. now rewrite !N.mod_1_r.
Qed.

Lemma hex_digit_upper (c : ascii) : hex_digit (upper_char c) = hex_digit c.
Proof.
  destruct c as [[] [] [] [] [] [] [] []]; vm_compute; reflexivity.
Qed.

Lemma white_space_upper (c : ascii) :
  is_white_space (upper_char c) = is_white_space c.
Proof.
  destruct c as [[] [] [] [] [] [] [] []]; vm_compute; reflexivity.
Qed.

Lemma dec_digit_upper (c : ascii) : dec_digit (upper_char c) = dec_digit c.
Proof.
  destruct c as [[] [] [] [] [] [] [] []]; vm_compute; reflexivity.
Qed.

Lemma hex_value_upper (s : string) :
  forall a, hex_value a (toUpperCase s) = hex_value a s.
Proof.
  induction s as [|c s IH]; intros a; cbn [toUpperCase hex_value];
    [reflexivity|].
  rewrite hex_digit_upper. destruct (hex_digit c); [apply IH | reflexivity].
Qed.

Lemma length_upper (s : string) :
  String.length (toUpperCase s) = String.length s.
Proof. induction s as [|c s IH]; cbn; congruence. Qed.

(** The field of width [w] that the encoder cuts out of a zero-padded
    string of hexadecimal digits of value [n]. *)
Lemma padded_field (pad w : nat) (t : string) (n : N) :
  (1 <= w <= pad + String.length t)%nat ->
  hex_value 0 t = Some n ->
  let s := zeros pad ++ t in
  let fld := substr_from (String.length s - w) s in
  String.length fld = w /\ Number_hex fld = Some (n mod 16 ^ N.of_nat w).
Proof.
  intros Hw Ht s fld. subst fld.
  assert (Hlen : String.length s = (pad + String.length t)%nat)
    by (unfold s; now rewrite length_app, length_zeros).
  assert (Hs : hex_value 0 s = Some n)
    by (unfold s; now rewrite hex_value_app, hex_value_zeros).
  rewrite substr_from_drop.
  assert (Hl : String.length (drop (String.length s - w) s) = w)
    by (rewrite length_drop; lia).
  split; [exact Hl|].
  apply Number_hex_digits.
  - intros E. rewrite E in Hl. cbn in Hl. lia.
  - rewrite (hex_value_drop s _ n Hs). do 3 f_equal. lia.
Qed.

(** The identifier field has the width of its type whatever the
    identifier, and holds its low-order digits. *)
Lemma id_field_mod (w : nat) (i : N) :
  (1 <= w <= 8)%nat ->
  String.length (id_field w i) = w /\
  Number_hex (id_field w i) = Some (i mod 16 ^ N.of_nat w).
Proof.
  intros Hw. destruct (toString16_spec i) as (Hlen & Hval & _).
  unfold id_field. change "0000000" with (zeros 7).
  apply padded_field; [lia|].
  now rewrite Hval.
Qed.

Lemma hex2_mod (b : N) :
  String.length (hex2 b) = 2%nat /\ Number_hex (hex2 b) = Some (b mod 256).
Proof.
  destruct (toString16_spec b) as (Hlen & Hval & _).
  unfold hex2. change "0" with (zeros 1).
  change 256 with (16 ^ N.of_nat 2).
  apply padded_field.
  - rewrite length_upper. lia.
  - now rewrite hex_value_upper, Hval.
Qed.

End HexFacts.

(** ** The command of the encoder, for any frame *)

Module EncoderFacts.
Import JS Wire StringFacts NumberFacts FieldFacts HexFacts Encoder Parser.

Lemma no_cr_app (a b : string) : no_cr (a ++ b) <-> no_cr a /\ no_cr b.
Proof.
  unfold no_cr. induction a as [|c a IH]; cbn [String.append exists_char].
  - tauto.
  - rewrite !orb_false_iff, IH. tauto.
Qed.

Lemma digit_char_not_cr (d : N) : d < 16 -> (digit_char d =? CR)%char = false.
Proof.
  intros Hd.
  assert (H : negb (digit_char d =? CR)%char = true)
    by (apply (below_forall 16 (fun d => negb (digit_char d =? CR)%char));
        [reflexivity | exact Hd]).
  now apply negb_true_iff in H.
Qed.

Lemma upper_char_cr (c : ascii) : (upper_char c =? CR)%char = (c =? CR)%char.
Proof.
  destruct c as [[] [] [] [] [] [] [] []]; vm_compute; reflexivity.
Qed.

Lemma no_cr_upper (s : string) : no_cr s -> no_cr (toUpperCase s).
Proof.
  unfold no_cr. induction s as [|c s IH]; cbn [toUpperCase exists_char];
    [trivial|].
  rewrite upper_char_cr, !orb_false_iff. intros [Hc Hs]. split; auto.
Qed.

Lemma no_cr_drop (k : nat) (s : string) : no_cr s -> no_cr (drop k s).
Proof.
  unfold no_cr. revert k; induction s as [|c s IH]; intros [|k] H;
    cbn [drop exists_char] in *; try assumption.
  apply orb_false_iff in H as [_ H]. now apply IH.
Qed.

Lemma no_cr_zeros (n : nat) : no_cr (zeros n).
Proof. unfold no_cr. induction n; cbn; auto. Qed.

(** The digits of a number in a radix up to 16 hold no terminator. *)
Lemma no_cr_digits (radix : N) (fuel : nat) :
  0 < radix <= 16 ->
  forall n acc, no_cr acc -> no_cr (digits radix fuel n acc).
Proof.
  intros Hr. induction fuel as [|fuel IH]; intros n acc Hacc;
    cbn [digits]; [exact Hacc|].
  assert (Hstep : no_cr (String (digit_char (n mod radix)) acc)).
  { unfold no_cr in *. cbn [exists_char]. rewrite Hacc.
    rewrite digit_char_not_cr; [reflexivity|].
    pose proof (N.mod_lt n radix). lia. }
  destruct (n / radix =? 0); [exact Hstep | now apply IH].
Qed.

Lemma no_cr_toString (radix n : N) :
  0 < radix <= 16 -> no_cr (toString radix n).
Proof. intros Hr. apply no_cr_digits; [exact Hr | reflexivity]. Qed.

Lemma no_cr_id_field (w : nat) (i : N) : no_cr (id_field w i).
Proof.
  unfold id_field. rewrite substr_from_drop. apply no_cr_drop.
  apply no_cr_app. split; [apply (no_cr_zeros 7) | apply no_cr_toString; lia].
Qed.

Lemma no_cr_hex2 (b : N) : no_cr (hex2 b).
Proof.
  unfold hex2. rewrite substr_from_drop. apply no_cr_drop.
  apply no_cr_app. split; [apply (no_cr_zeros 1)|].
  apply no_cr_upper, no_cr_toString. lia.
Qed.

Lemma no_cr_hex_bytes (l : list N) : no_cr (hex_bytes l).
Proof.
  induction l as [|b l IH]; cbn [hex_bytes]; [reflexivity|].
  apply no_cr_app. split; [apply no_cr_hex2 | exact IH].
Qed.

Lemma no_cr_header (f : frame) : no_cr (header f).
Proof.
  unfold header.
  change (String (type_char f) ?s) with (String (type_char f) EmptyString ++ s).
  apply no_cr_app. split.
  - unfold type_char. destruct (is_ext_id f), (is_remote f); reflexivity.
  - apply no_cr_app. split; [apply no_cr_id_field | apply no_cr_toString; lia].
Qed.

Lemma length_hex_bytes_any (l : list N) :
  String.length (hex_bytes l) = (2 * List.length l)%nat.
Proof.
  induction l as [|b l IH]; cbn [hex_bytes List.length]; [reflexivity|].
  rewrite length_app, IH. destruct (hex2_mod b) as [-> _]. lia.
Qed.

Lemma length_header (f : frame) :
  dlc f <= 8 ->
  String.length (header f) = (1 + id_len (is_ext_id f) + 1)%nat.
Proof.
  intros Hd. unfold header. cbn [String.length]. rewrite length_app.
  destruct (dlc_digit_spec _ Hd) as [-> _].
  assert (Hw : (1 <= id_len (is_ext_id f) <= 8)%nat)
    by (unfold id_len, EXT_ID_LEN, STD_ID_LEN; destruct (is_ext_id f); lia).
  destruct (id_field_mod _ (id f) Hw) as [-> _]. lia.
Qed.



(** A string that the encoder returns, in closed form. *)
Lemma packFrame_ok (f : frame) (s : string) :
  _packFrame f = Ok s ->
  (N.to_nat (dlc f) <= List.length (data f))%nat /\
  s = (header f ++ hex_bytes (firstn (N.to_nat (dlc f)) (data f))) ++ cr.
Proof.
  rewrite packFrame_header.
  destruct (Nat.le_gt_cases (N.to_nat (dlc f)) (List.length (data f)))
    as [Hle|Hgt].
  - rewrite pack_data_ok by exact Hle. cbn [bind skipn]. intros H.
    split; [exact Hle|]. congruence.
  - rewrite pack_data_short by lia. discriminate.
Qed.

End EncoderFacts.

(** ** Strings as bytes on the wire *)

Module WireBytes.
Import JS StringFacts.

Lemma bytes_of_app (a b : string) :
  bytes_of (a ++ b) = (bytes_of a ++ bytes_of b)%list.
Proof.
  unfold bytes_of, list_byte_of_string.
  induction a as [|c a IH]; cbn; [reflexivity | now rewrite IH].
Qed.

Lemma bytes_of_cr : bytes_of cr = [CRb].
Proof. reflexivity. Qed.


Lemma no_terminator_bytes (s : string) :
  no_cr s -> no_terminator (bytes_of s).
Proof.
  unfold no_cr, no_terminator, bytes_of, list_byte_of_string.
  induction s as [|c s IH]; cbn; intros H; [constructor|].
  apply orb_false_iff in H as [Hc Hs]. constructor; [|now apply IH].
  rewrite ascii_of_byte_of_ascii. now apply Ascii.eqb_neq.
Qed.


End WireBytes.

(** ** Encoder: identifiers and bytes of any size *)



(** X2: whenever the encoder returns a string, it is a command without any
    terminator character followed by one terminator. *)
Theorem encoder_one_terminator (f : frame) (s : string) :
  _packFrame f = Ok s -> exists cmd, s = cmd ++ cr /\ no_cr cmd.
Proof.
  intros H. apply EncoderFacts.packFrame_ok in H as [_ ->].
  eexists. split; [reflexivity|].
  apply EncoderFacts.no_cr_app. split;
    [apply EncoderFacts.no_cr_header | apply EncoderFacts.no_cr_hex_bytes].
Qed.

Lemma encoder_one_terminator_witness :
  exists cmd, ("t1232ABCD" ++ cr) = cmd ++ cr /\ no_cr cmd.
Proof.
  apply (encoder_one_terminator (data_frame false 0x123 2 [0xAB; 0xCD])).
  reflexivity.
Defined.

(** X3: for a frame with [dlc <= 8], a string that the encoder returns has
    one character more than what the parser reads for that type and DLC. *)
Theorem encoder_length (f : frame) (s : string) :
  dlc f <= 8 -> _packFrame f = Ok s ->
  String.length s = S (read_length (is_ext_id f) (dlc f)).
Proof.
  intros Hd H. apply EncoderFacts.packFrame_ok in H as [E ->].
  rewrite !StringFacts.length_app, EncoderFacts.length_header by exact Hd.
  rewrite EncoderFacts.length_hex_bytes_any, length_firstn.
  unfold read_length, cr. cbn [String.length]. lia.
Qed.

Lemma encoder_length_witness :
  String.length ("T01abcdef0" ++ cr) = S (read_length true 0).
Proof.
  apply (encoder_length (data_frame true 0x1ABCDEF 0 [])).
  - vm_compute. discriminate.
  - reflexivity.
Defined.

(** ** Parser: what it returns and what it raises *)

Module ParserBounds.
Import JS Wire StringFacts NumberFacts HexFacts ParserFacts.

Lemma length_trim_end (s : string) :
  (String.length (trim_end s) <= String.length s)%nat.
Proof.
  induction s as [|c s IH]; cbn [trim_end String.length]; [lia|].
  destruct (trim_end s); [destruct (is_white_space c)|]; cbn in *; lia.
Qed.

(** A field of [n] characters at most converts to a number below [16^n]. *)
Lemma Number_hex_lt (s : string) (v : N) (n : nat) :
  (String.length s <= n)%nat -> Number_hex s = Some v -> v < 16 ^ N.of_nat n.
Proof.
  intros Hn H. unfold Number_hex in H.
  pose proof (length_trim_end s) as Ht.
  destruct (trim_end s) as [|c t] eqn:E; [discriminate|].
  apply hex_value_lt in H.
  apply N.lt_le_trans with (1 := H).
  apply N.pow_le_mono_r; lia.
Qed.

Lemma substr_beyond (k n : nat) (s : string) :
  (String.length s <= k)%nat -> substr k n s = EmptyString.
Proof.
  revert k; induction s as [|c s IH]; intros k H; [reflexivity|].
  destruct k as [|k]; cbn in *; [lia|]. apply IH. lia.
Qed.

Lemma data_pos (ext : bool) (i : nat) :
  (if ext then 2 + EXT_ID_LEN + i * 2 else 2 + STD_ID_LEN + i * 2)%nat
  = (2 + id_len ext + i * 2)%nat.
Proof. destruct ext; reflexivity. Qed.

(** What a run of the data loop that succeeds has built and read. *)
Lemma parse_data_ok (ext : bool) (str : string) (n : nat) :
  forall i acc l, parse_data ext str i n acc = Ok l ->
  exists new, l = (acc ++ new)%list /\ List.length new = n /\
              Forall is_byte new /\
              (0 < n -> 2 + id_len ext + (i + n - 1) * 2 < String.length str)%nat.
Proof.
  induction n as [|n IH]; intros i acc l H; cbn [parse_data] in H.
  - inversion H. exists []. rewrite app_nil_r. repeat split; [constructor | lia].
  - rewrite data_pos in H.
    destruct (Number_hex _) as [b|] eqn:Hb; [|discriminate].
    destruct (IH _ _ _ H) as (new & -> & Hlen & Hbytes & Hpos).
    exists (b :: new). rewrite <- List.app_assoc. cbn [List.app List.length].
    split; [reflexivity|]. split; [now rewrite Hlen|]. split.
    + constructor; [|exact Hbytes].
      apply (Number_hex_lt _ _ 2 (length_substr _ _ _) Hb).
    + intros _. destruct n as [|n]; [|lia].
      destruct (Nat.le_gt_cases (String.length str) (2 + id_len ext + i * 2))
        as [Hle|Hgt]; [|lia].
      rewrite (substr_beyond _ _ _ Hle) in Hb. discriminate.
Qed.

(** The data loop raises at an index that it was asked to read. *)
Lemma parse_data_error_index (ext : bool) (str : string) (n : nat) :
  forall i acc e, parse_data ext str i n acc = Err e ->
  exists j, e = InvalidDataByte j /\ (i <= j < i + n)%nat.
Proof.
  induction n as [|n IH]; intros i acc e H; cbn [parse_data] in H;
    [discriminate|].
  destruct (Number_hex _).
  - destruct (IH _ _ _ H) as (j & -> & Hj). exists j. split; [reflexivity|lia].
  - inversion H. exists i. split; [reflexivity|lia].
Qed.

Lemma Number_char_small (s : string) (d : N) :
  Number_char s = Some d -> d <= 9.
Proof.
  destruct s as [|c [|c' s]]; cbn [Number_char]; intros H;
    [inversion H; lia | | discriminate].
  destruct (is_white_space c); [inversion H; lia|].
  revert H. unfold dec_digit. destruct (_ && _) eqn:E; [|discriminate].
  apply andb_prop in E as [_ E]. apply N.leb_le in E.
  intros H. inversion H. lia.
Qed.

(** ** Upper case *)

Lemma substr_upper (k n : nat) (s : string) :
  substr k n (toUpperCase s) = toUpperCase (substr k n s).
Proof.
  revert k n; induction s as [|c s IH]; intros k n; [reflexivity|].
  cbn [toUpperCase substr]. destruct k as [|k]; [|apply IH].
  destruct n as [|n]; [reflexivity|]. cbn [toUpperCase]. now rewrite IH.
Qed.

Lemma trim_end_upper (s : string) :
  trim_end (toUpperCase s) = toUpperCase (trim_end s).
Proof.
  induction s as [|c s IH]; [reflexivity|].
  cbn [toUpperCase trim_end]. rewrite IH, white_space_upper.
  destruct (trim_end s); [destruct (is_white_space c)|]; reflexivity.
Qed.

Lemma Number_hex_upper (s : string) :
  Number_hex (toUpperCase s) = Number_hex s.
Proof.
  unfold Number_hex. rewrite trim_end_upper.
  destruct (trim_end s) as [|c t]; [reflexivity|].
  change (toUpperCase (String c t)) with (toUpperCase (String c t)).
  rewrite <- (hex_value_upper (String c t)). reflexivity.
Qed.

Lemma Number_char_upper (s : string) :
  Number_char (toUpperCase s) = Number_char s.
Proof.
  destruct s as [|c [|c' s]]; cbn [toUpperCase Number_char];
    [reflexivity | | reflexivity].
  now rewrite white_space_upper, dec_digit_upper.
Qed.

Lemma parse_data_upper (ext : bool) (c : ascii) (rest : string) (n : nat) :
  forall i acc,
  parse_data ext (String c (toUpperCase rest)) i n acc =
  parse_data ext (String c rest) i n acc.
Proof.
  induction n as [|n IH]; intros i acc; cbn [parse_data]; [reflexivity|].
  rewrite data_pos. cbn [Nat.add substr].
  rewrite substr_upper, Number_hex_upper.
  destruct (Number_hex _); [apply IH | reflexivity].
Qed.

End ParserBounds.

(** X4: a frame that the parser returns for a command of a given type has
    [dlc <= 8], exactly [dlc] data elements, all of them bytes, an
    identifier below [16^3] (standard) or [16^8] (extended), no timestamp,
    the remote flag of the type character, and [is_ext_id] false. *)
Theorem parsed_frame_bounds (str : string) (ext rem : bool) (f : frame) :
  frame_type str = Ok (ext, rem) ->
  _parseFrame str = Ok f ->
  parsed_ok ext f /\ is_remote f = rem /\ is_ext_id f = false.
Proof.
  intros Hty H. rewrite (ParserFacts.parseFrame_typed _ _ _ Hty) in H.
  destruct (Number_hex _) as [i|] eqn:Hi; [|discriminate].
  destruct (Number_char _) as [d|]; [|discriminate].
  destruct (8 <? d) eqn:Hd; [discriminate|]. apply N.ltb_ge in Hd.
  destruct (parse_data ext str 0 (N.to_nat d) []) as [bytes|e] eqn:Hpd;
    [|discriminate].
  cbn [on_ok] in H. inversion H; subst f. clear H.
  destruct (ParserBounds.parse_data_ok _ _ _ _ _ _ Hpd)
    as (new & -> & Hlen & Hbytes & _).
  unfold parsed_ok. cbn. repeat split; try assumption.
  apply (ParserBounds.Number_hex_lt _ _ _ (StringFacts.length_substr _ _ _) Hi).
Qed.

Lemma parsed_frame_bounds_witness :
  parsed_ok false
    {| id := 0xFFF; dlc := 1; timestamp := None; data := [0xAB];
       is_ext_id := false; is_remote := true; id_ext_id := Some false |} /\
  true = true /\ false = false.
Proof.
  apply (parsed_frame_bounds "rFFF1AB" false true
           {| id := 0xFFF; dlc := 1; timestamp := None; data := [0xAB];
              is_ext_id := false; is_remote := true;
              id_ext_id := Some false |}); reflexivity.
Defined.

(** X5: the parser raises one of its four errors only, never a TypeError,
    and the index of an InvalidDataByte is below 8. *)
Theorem parse_error_kinds (str : string) (e : exn) :
  _parseFrame str = Err e ->
  e = InvalidFrameType \/ e = InvalidIdentifier \/ e = InvalidDlc \/
  exists j, e = InvalidDataByte j /\ (j < 8)%nat.
Proof.
  intros H. destruct (frame_type str) as [[ext rem]|e0] eqn:Hty.
  - rewrite (ParserFacts.parseFrame_typed _ _ _ Hty) in H.
    destruct (Number_hex _); [|inversion H; auto].
    destruct (Number_char _) as [d|]; [|inversion H; auto].
    destruct (8 <? d) eqn:Hd; [inversion H; auto|]. apply N.ltb_ge in Hd.
    destruct (parse_data ext str 0 (N.to_nat d) []) as [bytes|e1] eqn:Hpd;
      cbn [on_ok] in H; [discriminate|].
    inversion H; subst e1.
    destruct (ParserBounds.parse_data_error_index _ _ _ _ _ _ Hpd)
      as (j & -> & Hj).
    right; right; right. exists j. split; [reflexivity|lia].
  - unfold _parseFrame in H. rewrite Hty in H. cbn [bind] in H.
    inversion H; subst e0. left.
    unfold frame_type in Hty. destruct (char0 str) as [c|]; [|congruence].
    repeat match type of Hty with
           | (if ?b then _ else _) = _ => destruct b; [discriminate|]
           end.
    congruence.
Qed.

Lemma parse_error_kinds_witness :
  InvalidDataByte 1 = InvalidFrameType \/
  InvalidDataByte 1 = InvalidIdentifier \/
  InvalidDataByte 1 = InvalidDlc \/
  exists j, InvalidDataByte 1 = InvalidDataByte j /\ (j < 8)%nat.
Proof.
  apply (parse_error_kinds "t1232ABxy" (InvalidDataByte 1)). reflexivity.
Defined.

(** X6: the parser treats lower-case and upper-case letters after the type
    character alike: putting the rest of a command in upper case changes
    neither the frame nor the error. *)
Theorem parse_case_insensitive (c : ascii) (rest : string) :
  _parseFrame (String c (toUpperCase rest)) = _parseFrame (String c rest).
Proof.
  destruct (frame_type (String c EmptyString)) as [[ext rem]|e] eqn:Hty.
  - rewrite !(ParserFacts.parseFrame_typed _ ext rem)
      by (rewrite Parser.frame_type_char; exact Hty).
    unfold id_chars. cbn [Nat.add substr].
    rewrite !ParserBounds.substr_upper, ParserBounds.Number_hex_upper.
    destruct (Number_hex _); [|reflexivity].
    rewrite ParserBounds.Number_char_upper.
    destruct (Number_char _) as [d|]; [|reflexivity].
    destruct (8 <? d); [reflexivity|].
    now rewrite ParserBounds.parse_data_upper.
  - unfold _parseFrame.
    rewrite (Parser.frame_type_char c (toUpperCase rest)),
      (Parser.frame_type_char c rest), Hty.
    reflexivity.
Qed.

(** X7: the parser returns no data byte for which the command has no
    character at all: when it returns a frame with [dlc > 0], the command
    has at most one character less than what the parser reads. *)
Theorem parse_needs_data_characters
    (str : string) (ext rem : bool) (f : frame) :
  frame_type str = Ok (ext, rem) ->
  _parseFrame str = Ok f ->
  0 < dlc f ->
  (read_length ext (dlc f) <= S (String.length str))%nat.
Proof.
  intros Hty H Hpos. rewrite (ParserFacts.parseFrame_typed _ _ _ Hty) in H.
  destruct (Number_hex _) as [i|]; [|discriminate].
  destruct (Number_char _) as [d|]; [|discriminate].
  destruct (8 <? d); [discriminate|].
  destruct (parse_data ext str 0 (N.to_nat d) []) as [bytes|e] eqn:Hpd;
    [|discriminate].
  cbn [on_ok] in H. inversion H; subst f. cbn [dlc] in *.
  destruct (ParserBounds.parse_data_ok _ _ _ _ _ _ Hpd)
    as (new & _ & _ & _ & Hlen).
  unfold read_length. lia.
Qed.

Lemma parse_needs_data_characters_witness :
  (read_length false 1 <= S (String.length "r1231A"))%nat.
Proof.
  apply (parse_needs_data_characters "r1231A" false true
           {| id := 0x123; dlc := 1; timestamp := None; data := [0xA];
              is_ext_id := false; is_remote := true;
              id_ext_id := Some false |}); reflexivity.
Defined.

(** ** Stream decoder: invariants and composition *)

Module StreamFacts.
Import JS StringFacts.

Lemma no_cr_snoc (s : string) (c : ascii) :
  no_cr s -> (c =? CR)%char = false -> no_cr (s ++ String c EmptyString).
Proof.
  unfold no_cr. intros Hs Hc. induction s as [|x s IH];
    cbn [String.append exists_char] in *.
  - now rewrite Hc.
  - apply orb_false_iff in Hs as [Hx Hs]. rewrite Hx. now apply IH.
Qed.

Lemma buffer_ok_idle : buffer_ok idle.
Proof. split; reflexivity. Qed.



End StreamFacts.

(** X8: every receive call keeps the counter equal to the length of the
    buffer and the buffer free of terminators, also when it raises. *)
Theorem recv_keeps_buffer_ok
    (now : N) (bytes : list byte) (st : slcan) (cbs : list frame) :
  buffer_ok st -> buffer_ok (obj (_serialRecvCallback now st cbs bytes)).
Proof.
  revert st cbs; induction bytes as [|b bytes IH]; intros st cbs Hst;
    cbn [_serialRecvCallback]; [exact Hst|].
  destruct (ascii_of_byte b =? CR)%char eqn:Hb.
  - cbn [_recv_str].
    destruct (_parseFrame (_recv_str st));
      [apply IH|]; apply StreamFacts.buffer_ok_idle.
  - apply IH. destruct Hst as [Hcount Hcr]. split; cbn [_recv_count _recv_str].
    + rewrite StringFacts.length_app. cbn [String.length]. lia.
    + now apply StreamFacts.no_cr_snoc.
Qed.

Lemma recv_keeps_buffer_ok_witness :
  buffer_ok (obj (_serialRecvCallback 0 new_slcan [] (bytes_of "t12"))).
Proof.
  apply (recv_keeps_buffer_ok 0 (bytes_of "t12") new_slcan []).
  split; reflexivity.
Defined.


(** X10: a call on [b1 ++ b2] is the call on [b1] followed by the call on
    [b2] when the first raises nothing, and is the call on [b1] alone
    when it raises: the bytes after a malformed command are dropped. *)
Theorem recv_splits
    (now : N) (b1 b2 : list byte) (st : slcan) (cbs : list frame) :
  _serialRecvCallback now st cbs (b1 ++ b2)%list =
  match thrown (_serialRecvCallback now st cbs b1) with
  | Some _ => _serialRecvCallback now st cbs b1
  | None =>
      _serialRecvCallback now
        (obj (_serialRecvCallback now st cbs b1))
        (calls (_serialRecvCallback now st cbs b1)) b2
  end.
Proof. apply Stream.recv_app. Qed.



(** ** The transmit path *)



(** X13: what [send] does is one of three things: it raises "Not
    connected" on a port without connection, it raises a TypeError when
    the frame has fewer than [dlc] data elements, or it makes exactly one
    [chrome.serial.send] on the connection, of a command without
    terminator byte followed by one terminator. *)
Theorem send_outcomes (p : serial_port) (f : frame) :
  (_conn p = None /\ send p f = SendErr NotConnected) \/
  (exists c, _conn p = Some c /\
     (List.length (data f) < N.to_nat (dlc f))%nat /\
     send p f = SendErr (Raised TypeError)) \/
  (exists c cmd, _conn p = Some c /\
     (N.to_nat (dlc f) <= List.length (data f))%nat /\
     no_terminator cmd /\
     send p f = Sent [SerialSend (connectionId c) (cmd ++ [CRb])%list]).
Proof.
  unfold send, _serialWrite. destruct (_conn p) as [c|]; [|left; now split].
  right. destruct (_packFrame f) as [s|e] eqn:Hpack.
  - right. apply EncoderFacts.packFrame_ok in Hpack as [Hle ->].
    exists c. eexists. split; [reflexivity|]. split; [exact Hle|].
    rewrite WireBytes.bytes_of_app, WireBytes.bytes_of_cr.
    split; [|reflexivity].
    apply WireBytes.no_terminator_bytes, EncoderFacts.no_cr_app. split;
      [apply EncoderFacts.no_cr_header | apply EncoderFacts.no_cr_hex_bytes].
  - left. exists c. split; [reflexivity|].
    rewrite Encoder.packFrame_header in Hpack.
    destruct (Nat.le_gt_cases (N.to_nat (dlc f)) (List.length (data f)))
      as [Hle|Hgt].
    + rewrite Encoder.pack_data_ok in Hpack by exact Hle. discriminate.
    + split; [exact Hgt|].
      rewrite Encoder.pack_data_short in Hpack by lia.
      cbn [bind] in Hpack. congruence.
Qed.


(** ** Distinct frames, distinct commands *)

(** X15: two frames with [dlc <= 8], exactly [dlc] data bytes and
    identifiers in the range of their type that the encoder renders as the
    same string agree on [id], [dlc], [data], [is_ext_id] and
    [is_remote]. *)
Theorem encoder_injective (f g : frame) :
  dlc f <= 8 -> List.length (data f) = N.to_nat (dlc f) ->
  Forall is_byte (data f) -> id_in_range f ->
  dlc g <= 8 -> List.length (data g) = N.to_nat (dlc g) ->
  Forall is_byte (data g) -> id_in_range g ->
  _packFrame f = _packFrame g ->
  same_but_timestamp f g.
Proof.
  intros Hdf Hlf Hbf Hif Hdg Hlg Hbg Hig Heq.
  rewrite (RoundTrip.packFrame_sized f Hlf),
    (RoundTrip.packFrame_sized g Hlg) in Heq.
  assert (Hcmd : header f ++ hex_bytes (data f)
                 = header g ++ hex_bytes (data g))
    by (apply RoundTrip.app_cr_inj; congruence).
  pose proof (RoundTrip.parse_packed f Hdf Hlf Hbf Hif) as Pf.
  pose proof (RoundTrip.parse_packed g Hdg Hlg Hbg Hig) as Pg.
  rewrite Hcmd, Pg in Pf. inversion Pf as [[H1 H2 H3 H4 H5]].
  unfold same_but_timestamp. repeat split; congruence.
Qed.

Lemma encoder_injective_witness :
  same_but_timestamp
    (data_frame false 0x123 1 [0xAB])
    {| id := 0x123; dlc := 1; timestamp := Some 99; data := [0xAB];
       is_ext_id := false; is_remote := false; id_ext_id := Some false |}.
Proof.
  apply encoder_injective;
    try reflexivity; try (vm_compute; discriminate); repeat constructor.
Defined.
